(** * Mantra: utterance reconciliation, line diff and highlight lifecycle

    A shallow embedding of the three pieces of the extension that turn
    external signals into document state:

    - [Diff]: [computeChangeHints] of [src/extension.ts];
    - [Reconciler]: the listening session built by [transcribeStream] of
      [src/model.ts] (its event handlers, [resetIdle], [appendWithOverlap],
      [safeResolve], [safeReject]);
    - [Highlight]: [replaceDocumentWithHighlight] of [src/extension.ts]
      together with the release timer it arms.

    JavaScript strings are sequences of UTF-16 code units; they are modelled
    as lists of code units, so that [length], [slice], [indexOf],
    [endsWith] and [charCodeAt] have their JavaScript meaning. *)

From Stdlib Require Import ZArith NArith List Bool Lia String Ascii Sorted.
From stdpp Require Import base list gmap.

Local Open Scope Z_scope.
Set Warnings "-clear-no-such-hyp".

(* ================================================================== *)
(** ** JavaScript strings *)
(* ================================================================== *)

Module JS.

Definition jsstring : Type := list N.

Definition LF : N := 10%N.
Definition CR : N := 13%N.
Definition SP : N := 32%N.

(** Literals: [js "a\nb"] is the JavaScript literal ["a\nb"]; the two
    escapes [\n] and [\r] are the only ones interpreted. *)
Fixpoint js (s : string) : jsstring :=
  match s with
  | EmptyString => []
  | String c r =>
      match r with
      | String d r' =>
          if (Ascii.eqb c "\" && Ascii.eqb d "n")%bool then LF :: js r'
          else if (Ascii.eqb c "\" && Ascii.eqb d "r")%bool then CR :: js r'
          else N_of_ascii c :: js r
      | EmptyString => [N_of_ascii c]
      end
  end.

(** The code units matched by [\s] and removed by [String.prototype.trim]
    (ECMAScript WhiteSpace and LineTerminator). *)
Definition isWhiteSpace (c : N) : bool :=
  ((9 <=? c) && (c <=? 13) || (c =? 32) || (c =? 160) || (c =? 5760)
   || (8192 <=? c) && (c <=? 8202) || (c =? 8232) || (c =? 8233)
   || (c =? 8239) || (c =? 8287) || (c =? 12288) || (c =? 65279))%N%bool.

Fixpoint trimStart (s : jsstring) : jsstring :=
  match s with
  | c :: r => if isWhiteSpace c then trimStart r else s
  | [] => []
  end.

Definition trimEnd (s : jsstring) : jsstring := rev (trimStart (rev s)).

Definition trim (s : jsstring) : jsstring := trimEnd (trimStart s).

(** [s.replace(/\s+/g, '')] *)
Definition stripWhiteSpace (s : jsstring) : jsstring :=
  List.filter (fun c => negb (isWhiteSpace c)) s.

(** Truthiness of a string: non-empty. *)
Definition truthy (s : jsstring) : bool :=
  match s with [] => false | _ => true end.

(** [s.split(/\r?\n/)].  The separator is a line feed, together with the
    carriage return immediately before it when there is one; a string
    without separator (the empty string included) gives one element. *)
Fixpoint split (s : jsstring) : list jsstring :=
  match s with
  | [] => [[]]
  | c :: r =>
      if ((c =? CR)%N && match r with d :: _ => (d =? LF)%N | [] => false end)%bool
      then split r
      else if (c =? LF)%N then [] :: split r
      else match split r with
           | l :: ls => (c :: l) :: ls
           | [] => [[c]]
           end
  end.

(** [lines.join('\n')] *)
Fixpoint join (lines : list jsstring) : jsstring :=
  match lines with
  | [] => []
  | [l] => l
  | l :: ls => l ++ LF :: join ls
  end.

(** [arr.slice(s, e)] for [0 <= s]. *)
Definition slice {A} (l : list A) (s e : Z) : list A :=
  take (Z.to_nat (e - s)) (drop (Z.to_nat s) l).

Fixpoint startsWith (s p : jsstring) : bool :=
  match p, s with
  | [], _ => true
  | c :: p', d :: s' => (c =? d)%N && startsWith s' p'
  | _ :: _, [] => false
  end.

(** [base.endsWith(p)] *)
Definition endsWith (s p : jsstring) : bool := startsWith (rev s) (rev p).

(** [s.indexOf(p)], with -1 when [p] does not occur. *)
Fixpoint indexOfFrom (k : nat) (s p : jsstring) : Z :=
  if startsWith s p then Z.of_nat k
  else match s with
       | [] => -1
       | _ :: r => indexOfFrom (S k) r p
       end.

Definition indexOf (s p : jsstring) : Z := indexOfFrom 0 s p.

End JS.

Import JS.

(* ================================================================== *)
(** ** The diff engine: [computeChangeHints] *)
(* ================================================================== *)

Module Diff.

Record Removed := { anchor : Z; count : Z }.
Record Moved := { start : Z; end_ : Z; fromStart : Z; fromEnd : Z }.
Record Hints := {
  added : list (Z * Z);
  removed : list Removed;
  moved : list Moved
}.

(** A [Uint16Array]: a store keeps the value modulo 2^16; a fresh array
    holds zeros. *)
Definition u16 (z : Z) : Z := z mod 65536.
Definition rd (dp : list Z) (k : nat) : Z := default 0 (dp !! k).
Definition wr (dp : list Z) (k : nat) (v : Z) : list Z := <[k := u16 v]> dp.

Definition idx (W i j : nat) : nat := i * W + j.

(** [A[i] === B[j]]; an index out of range reads [undefined], here [None]. *)
Definition sameLine (A B : list jsstring) (i j : nat) : bool :=
  bool_decide (A !! i = B !! j).

Section Table.
Variables A B : list jsstring.
Let n := length A.
Let m := length B.
Let W := (m + 1)%nat.

Definition cell (dp : list Z) (i j : nat) : Z :=
  if sameLine A B i j
  then rd dp (idx W (i + 1) (j + 1)) + 1
  else Z.max (rd dp (idx W (i + 1) j)) (rd dp (idx W i (j + 1))).

(** The inner loop [for (j = m - 1; j >= 0; j--)]. *)
Definition fillRow (i : nat) (dp : list Z) : list Z :=
  fold_left (fun dp j => wr dp (idx W i j) (cell dp i j)) (rev (seq 0 m)) dp.

(** The outer loop [for (i = n - 1; i >= 0; i--)]. *)
Definition fillTable : list Z :=
  fold_left (fun dp i => fillRow i dp) (rev (seq 0 n))
            (replicate ((n + 1) * (m + 1)) 0).

(** The variables of the walk. *)
Record Walk := {
  wi : nat; wj : nat;
  addStart : Z; delCount : Z;
  wadded : list (Z * Z); wremoved : list Removed
}.

Definition walkGuard (w : Walk) : bool :=
  ((wi w <? n) && (wj w <? m))%nat.

(** One iteration of [while (i < n && j < m)]. *)
Definition walkStep (dp : list Z) (w : Walk) : Walk :=
  if sameLine A B (wi w) (wj w) then
    {| wi := wi w + 1; wj := wj w + 1;
       addStart := -1; delCount := 0;
       wadded := if bool_decide (addStart w <> -1)
                 then wadded w ++ [(addStart w, Z.of_nat (wj w) - 1)]
                 else wadded w;
       wremoved := if bool_decide (delCount w <> 0)
                   then wremoved w ++ [{| anchor := Z.of_nat (wj w);
                                          count := delCount w |}]
                   else wremoved w |}
  else if rd dp (idx W (wi w + 1) (wj w)) >=? rd dp (idx W (wi w) (wj w + 1)) then
    {| wi := wi w + 1; wj := wj w;
       addStart := addStart w; delCount := delCount w + 1;
       wadded := wadded w; wremoved := wremoved w |}
  else
    {| wi := wi w; wj := wj w + 1;
       addStart := if bool_decide (addStart w = -1)
                   then Z.of_nat (wj w) else addStart w;
       delCount := delCount w;
       wadded := wadded w; wremoved := wremoved w |}.

Fixpoint walkLoop (fuel : nat) (dp : list Z) (w : Walk) : Walk :=
  match fuel with
  | O => w
  | S fuel' => if walkGuard w then walkLoop fuel' dp (walkStep dp w) else w
  end.

Definition walkInit : Walk :=
  {| wi := 0; wj := 0; addStart := -1; delCount := 0;
     wadded := []; wremoved := [] |}.

(** The two statements after the loop. *)
Definition walkFlush (w : Walk) : list (Z * Z) * list Removed :=
  (if bool_decide (addStart w <> -1)
   then wadded w ++ [(addStart w, Z.of_nat m - 1)] else wadded w,
   if bool_decide (delCount w <> 0)
   then wremoved w ++ [{| anchor := Z.max 0 (Z.of_nat m - 1);
                          count := delCount w |}]
   else wremoved w).

(** The branch [else if (m > 0)]: table, walk, flush.  Every iteration
    advances [i] or [j], so [n + m] iterations are enough
    (see [walkLoop_exits]). *)
Definition lcsHints : list (Z * Z) * list Removed :=
  walkFlush (walkLoop (n + m) fillTable walkInit).

End Table.

(** Which arm of the [if / else if / else if] chain runs. *)
Inductive Branch := EmptyOld | EmptyNew | General | NoBranch.

Definition branchOf (n m : nat) : Branch :=
  if ((n =? 0) && (0 <? m))%nat then EmptyOld
  else if ((m =? 0) && (0 <? n))%nat then EmptyNew
  else if (0 <? m)%nat then General
  else NoBranch.

Definition addedRemoved (A B : list jsstring) : list (Z * Z) * list Removed :=
  match branchOf (length A) (length B) with
  | EmptyOld => ([(0, Z.of_nat (length B) - 1)], [])
  | EmptyNew => ([], [])
  | General => lcsHints A B
  | NoBranch => ([], [])
  end.

(** [oldOffsets]: 0, then the offset after every line feed. *)
Fixpoint offsetsFrom (k : nat) (s : jsstring) : list Z :=
  match s with
  | [] => []
  | c :: r => if (c =? 10)%N then Z.of_nat (k + 1) :: offsetsFrom (k + 1) r
              else offsetsFrom (k + 1) r
  end.

Definition oldOffsets (oldText : jsstring) : list Z := 0 :: offsetsFrom 0 oldText.

(** [(lo + hi) >>> 1] *)
Definition ushr1 (z : Z) : Z := Z.shiftr (z mod 4294967296) 1.

Fixpoint searchLoop (fuel : nat) (offs : list Z) (off lo hi ans : Z) : Z :=
  match fuel with
  | O => ans
  | S fuel' =>
      if lo <=? hi then
        let mid := ushr1 (lo + hi) in
        if rd offs (Z.to_nat mid) <=? off
        then searchLoop fuel' offs off (mid + 1) hi mid
        else searchLoop fuel' offs off lo (mid - 1) ans
      else ans
  end.

(** The interval [lo..hi] shrinks at every iteration, so its initial
    size bounds the number of iterations. *)
Definition offsetToLine (offs : list Z) (off : Z) : Z :=
  searchLoop (length offs) offs off 0 (Z.of_nat (length offs) - 1) 0.

(** The body of [for (const [s, e] of added)]. *)
Definition movedOf (oldText : jsstring) (B : list jsstring) (offs : list Z)
           (span : Z * Z) : list Moved :=
  let '(s, e) := span in
  let block := join (slice B s (e + 1)) in
  if negb (truthy (stripWhiteSpace block)) then []
  else
    let foundAt := indexOf oldText block in
    if foundAt >=? 0 then
      let fromStart := offsetToLine offs foundAt in
      let fromEnd := fromStart + (e - s) in
      if Z.abs (fromStart - s) >? 1
      then [{| start := s; end_ := e; fromStart := fromStart; fromEnd := fromEnd |}]
      else []
    else [].

Definition movedHints (oldText : jsstring) (A B : list jsstring)
           (added : list (Z * Z)) : list Moved :=
  if ((0 <? length added) && (0 <? length A) && (0 <? length B))%nat
  then concat (map (movedOf oldText B (oldOffsets oldText)) added)
  else [].

Definition computeChangeHints (oldText newText : jsstring) : Hints :=
  let A := split oldText in
  let B := split newText in
  let ar := addedRemoved A B in
  {| added := ar.1; removed := ar.2;
     moved := movedHints oldText A B ar.1 |}.

End Diff.

Import Diff.

(* ================================================================== *)
(** ** The utterance reconciler: the session of [transcribeStream] *)
(* ================================================================== *)

Module Reconciler.

(** What the promise of [transcribeStream] was settled with. *)
Inductive Outcome := Resolved (txt : jsstring) | Rejected.

(** The variables of one listening session, with the part of the host
    they act on: the promise, the armed timeouts and the calls of
    [onInterim] and [connection.close]. *)
Record Session := {
  (* closure of the promise executor *)
  finalTranscript : jsstring;
  settled : bool;
  (* closure of the Open handler *)
  opened : bool;
  utterance : jsstring;
  lastTxt : jsstring;
  committed : jsstring;
  idleTimer : option nat;         (* [null], or the handle [setTimeout] returned *)
  (* host *)
  outcome : option Outcome;       (* the state of the promise *)
  settlements : nat;              (* calls of [resolve] and [reject] *)
  closeCalls : nat;               (* calls of [connection.close] *)
  pending : list (nat * Z);       (* armed timeouts: handle and due time *)
  nextHandle : nat;
  interims : list jsstring        (* arguments of the [onInterim] calls *)
}.

(** The numbers of the timing code.  [Number(setting)] is not a number
    when the setting is not numeric.  A whole number of milliseconds is
    followed exactly below 2^53, where doubles hold whole numbers and their
    sums exactly; a number of 2^53 or more (infinity included) is kept as
    [Large], without its value.  Settings with a fraction are not
    modelled. *)
Inductive Num := NaN | Ms (z : Z) | Large.

Definition EXACT : Z := 9007199254740992.        (* 2^53 *)

Definition num (z : Z) : Num := if z <? EXACT then Ms z else Large.

(** [Math.max(a, x)] for a constant [a] between 0 and 2^53: not a number
    when [x] is not. *)
Definition mathMax (a : Z) (x : Num) : Num :=
  match x with
  | NaN => NaN
  | Ms z => num (Z.max a z)
  | Large => Large
  end.

(** [x + b] for [x] of at least 0 and a constant [b] between 0 and 2^53:
    the rounded sum is the sum below 2^53, and at least 2^53 otherwise. *)
Definition plus (x : Num) (b : Z) : Num :=
  match x with
  | NaN => NaN
  | Ms z => num (z + b)
  | Large => Large
  end.

Record Config := {
  trailingSilenceMs : Num;        (* [Number(...)] of the setting [mantra.trailingSilenceMs] *)
  hasOnInterim : bool             (* whether the caller passed [onInterim] *)
}.

Definition trailingMsCfg (cfg : Config) : Num := mathMax 100 (trailingSilenceMs cfg).

(** The delay [resetIdle] passes to [setTimeout]. *)
Definition idleDelay (cfg : Config) : Num := mathMax 1200 (plus (trailingMsCfg cfg) 200).

(** The delay the host's [setTimeout] takes for [after]: the timers of
    Node set a delay that is not a number, below 1 or above 2^31 - 1
    to 1. *)
Definition TIMEOUT_MAX : Z := 2147483647.

Definition timeoutDelay (after : Num) : Z :=
  match after with
  | Ms z => if ((1 <=? z) && (z <=? TIMEOUT_MAX))%bool then z else 1
  | NaN | Large => 1
  end.

Definition init : Session :=
  {| finalTranscript := []; settled := false; opened := false;
     utterance := []; lastTxt := []; committed := []; idleTimer := None;
     outcome := None; settlements := 0; closeCalls := 0;
     pending := []; nextHandle := 0; interims := [] |}.

Definition withPromise (s : Session) (st : bool) (oc : option Outcome)
           (n c : nat) : Session :=
  {| finalTranscript := finalTranscript s; settled := st; opened := opened s;
     utterance := utterance s; lastTxt := lastTxt s; committed := committed s;
     idleTimer := idleTimer s; outcome := oc; settlements := n;
     closeCalls := c; pending := pending s; nextHandle := nextHandle s;
     interims := interims s |}.

Definition withFinalTranscript (s : Session) (ft : jsstring) : Session :=
  {| finalTranscript := ft; settled := settled s; opened := opened s;
     utterance := utterance s; lastTxt := lastTxt s; committed := committed s;
     idleTimer := idleTimer s; outcome := outcome s;
     settlements := settlements s; closeCalls := closeCalls s;
     pending := pending s; nextHandle := nextHandle s;
     interims := interims s |}.

Definition withBuffers (s : Session) (u l c : jsstring) : Session :=
  {| finalTranscript := finalTranscript s; settled := settled s;
     opened := opened s; utterance := u; lastTxt := l; committed := c;
     idleTimer := idleTimer s; outcome := outcome s;
     settlements := settlements s; closeCalls := closeCalls s;
     pending := pending s; nextHandle := nextHandle s;
     interims := interims s |}.

Definition withTimers (s : Session) (t : option nat) (p : list (nat * Z))
           (h : nat) : Session :=
  {| finalTranscript := finalTranscript s; settled := settled s;
     opened := opened s; utterance := utterance s; lastTxt := lastTxt s;
     committed := committed s; idleTimer := t; outcome := outcome s;
     settlements := settlements s; closeCalls := closeCalls s;
     pending := p; nextHandle := h; interims := interims s |}.

Definition withInterims (s : Session) (l : list jsstring) : Session :=
  {| finalTranscript := finalTranscript s; settled := settled s;
     opened := opened s; utterance := utterance s; lastTxt := lastTxt s;
     committed := committed s; idleTimer := idleTimer s;
     outcome := outcome s; settlements := settlements s;
     closeCalls := closeCalls s; pending := pending s;
     nextHandle := nextHandle s; interims := l |}.

Definition withOpened (s : Session) : Session :=
  {| finalTranscript := finalTranscript s; settled := settled s;
     opened := true; utterance := utterance s; lastTxt := lastTxt s;
     committed := committed s; idleTimer := idleTimer s;
     outcome := outcome s; settlements := settlements s;
     closeCalls := closeCalls s; pending := pending s;
     nextHandle := nextHandle s; interims := interims s |}.

(** A promise keeps the first value it is settled with. *)
Definition settle (o : option Outcome) (v : Outcome) : option Outcome :=
  match o with Some _ => o | None => Some v end.

Definition safeResolve (txt : jsstring) (s : Session) : Session :=
  if settled s then s
  else withPromise s true (settle (outcome s) (Resolved txt))
                   (settlements s + 1) (closeCalls s + 1).

Definition safeReject (s : Session) : Session :=
  if settled s then s
  else withPromise s true (settle (outcome s) Rejected)
                   (settlements s + 1) (closeCalls s + 1).

(** [clearTimeout(h)] *)
Definition clearTimeout (h : nat) (p : list (nat * Z)) : list (nat * Z) :=
  List.filter (fun t => negb (t.1 =? h)%nat) p.

(** [resetIdle], called at time [now]: the host runs the new timeout no
    earlier than its delay after it was armed. *)
Definition resetIdle (cfg : Config) (now : Z) (s : Session) : Session :=
  let p := match idleTimer s with
           | Some h => clearTimeout h (pending s)
           | None => pending s
           end in
  withTimers s (Some (nextHandle s))
             (p ++ [(nextHandle s, now + timeoutDelay (idleDelay cfg))])
             (nextHandle s + 1).

(** The callback [resetIdle] arms. *)
Definition idleCallback (s : Session) : Session :=
  if (negb (settled s) && truthy (trim (utterance s)))%bool
  then safeResolve (trim (utterance s))
                   (withFinalTranscript s (trim (utterance s)))
  else s.

(** The loop [for (let i = max; i > 0; i--)] of [appendWithOverlap]. *)
Fixpoint overlap (base next : jsstring) (i : nat) : nat :=
  match i with
  | O => O
  | S i' => if endsWith base (take i next) then i else overlap base next i'
  end.

Definition appendWithOverlap (base next : jsstring) : jsstring :=
  if negb (truthy base) then next
  else
    let max := Nat.min (length base) (length next) in
    let k := overlap base next max in
    base ++ drop k next.

(** The handler of [LiveTranscriptionEvents.Transcript]. *)
Definition onTranscript (cfg : Config) (now : Z) (transcript : jsstring)
           (isFinal isSpeechFinal : bool) (s : Session) : Session :=
  let txt := trim transcript in
  if negb (truthy txt) then s
  else
    let s1 :=
      if isFinal then
        let c := if truthy (committed s)
                 then appendWithOverlap (committed s) txt else txt in
        withBuffers s c [] c
      else
        let u := if truthy (committed s)
                 then (if truthy txt then committed s ++ SP :: txt
                       else committed s)
                 else txt in
        withBuffers s u txt (committed s) in
    let s2 := resetIdle cfg now s1 in
    if isSpeechFinal then
      safeResolve (trim (utterance s2))
                  (withFinalTranscript s2 (trim (utterance s2)))
    else if hasOnInterim cfg then withInterims s2 (interims s2 ++ [utterance s2])
    else s2.

(** The handler of [LiveTranscriptionEvents.Close]. *)
Definition onClose (s : Session) : Session :=
  if negb (settled s)
  then safeResolve (if truthy (finalTranscript s) then finalTranscript s else []) s
  else s.

(** The host runs the timeouts that are due at [now]; all of them carry
    the idle callback. *)
Definition runTimers (now : Z) (s : Session) : Session :=
  let due := List.filter (fun t => t.2 <=? now) (pending s) in
  let rest := List.filter (fun t => negb (t.2 <=? now)) (pending s) in
  fold_left (fun s _ => idleCallback s) due
            (withTimers s (idleTimer s) rest (nextHandle s)).

(** What reaches the session: the provider's events, those of the audio
    input, and the passing of time. *)
Inductive Event :=
| Open
| Transcript (transcript : jsstring) (is_final speech_final : bool)
| Close
| Error                  (* [LiveTranscriptionEvents.Error] *)
| InputData              (* a chunk, forwarded to the provider *)
| InputEnd               (* sends the Finalize instruction *)
| InputError
| Timers.                (* the host's timer phase *)

(** The handlers other than [Error] are attached by the Open handler; the
    provider opens a connection once, a second [Open] is not modelled. *)
Definition handle (cfg : Config) (now : Z) (ev : Event) (s : Session) : Session :=
  match ev with
  | Error => safeReject s
  | Timers => runTimers now s
  | Open => withOpened s
  | _ =>
      if opened s then
        match ev with
        | Transcript t f sf => onTranscript cfg now t f sf s
        | Close => onClose s
        | InputError => safeReject s
        | _ => s
        end
      else s
  end.

(** A session is driven by a sequence of timed events. *)
Definition run (cfg : Config) (evs : list (Z * Event)) (s : Session) : Session :=
  fold_left (fun s e => handle cfg e.1 e.2 s) evs s.

End Reconciler.

Import Reconciler.

(* ================================================================== *)
(** ** Apply and visualise: [replaceDocumentWithHighlight] *)
(* ================================================================== *)

Module Highlight.

Record Position := { line : Z; character : Z }.
Record Range := { rstart : Position; rend : Position }.

(** The inline text of a decoration, by what it is built from. *)
Inductive Label :=
| NoLabel
| RemovedLabel (count : Z)               (* "- N line(s) removed" *)
| MovedLabel (fromLine toLine : Z).      (* "moved from Lx-Ly" *)

Record DecorationOptions := { range : Range; label : Label }.

(** The editor of the host: the text of its document, its live decoration
    types with the ranges set for each, and the armed release timeouts
    (due time and the types the callback disposes). *)
Record Editor := {
  text : jsstring;
  decorations : gmap nat (list DecorationOptions);
  nextType : nat;
  timeouts : list (Z * list nat)
}.

(** [document.lineCount] and [document.lineAt] are the host editor's.  A
    document is modelled by its text, and its lines by what the host
    makes of the text: it breaks lines at CR LF, LF and CR, so that a
    document always has a line. *)
Fixpoint hostLines (s : jsstring) : list jsstring :=
  match s with
  | [] => [[]]
  | c :: r =>
      if ((c =? CR)%N && match r with d :: _ => (d =? LF)%N | [] => false end)%bool
      then hostLines r
      else if ((c =? LF) || (c =? CR))%N then [] :: hostLines r
      else match hostLines r with
           | l :: ls => (c :: l) :: ls
           | [] => [[c]]
           end
  end.

(** [document.lineCount] *)
Definition lineCount (txt : jsstring) : Z := Z.of_nat (length (hostLines txt)).

(** [document.lineAt(i).range] *)
Definition lineRange (txt : jsstring) (i : Z) : Range :=
  {| rstart := {| line := i; character := 0 |};
     rend := {| line := i;
                character := Z.of_nat (length (default [] (hostLines txt !! Z.to_nat i))) |} |}.

Definition DISPOSE_MS : Z := 3500.

Definition addedRanges (txt : jsstring) (added : list (Z * Z)) : list DecorationOptions :=
  concat (map (fun span : Z * Z =>
    let '(startLine, endLine) := span in
    if startLine >? endLine then []
    else
      let endLineClamped := Z.min (lineCount txt - 1) (Z.max 0 endLine) in
      [{| range := {| rstart := {| line := Z.max 0 startLine; character := 0 |};
                      rend := rend (lineRange txt endLineClamped) |};
          label := NoLabel |}]) added).

Definition removedRanges (txt : jsstring) (removed : list Removed) : list DecorationOptions :=
  concat (map (fun r : Removed =>
    if count r <=? 0 then []
    else
      let lineIdx := Z.min (Z.max 0 (anchor r)) (Z.max 0 (lineCount txt - 1)) in
      [{| range := lineRange txt lineIdx; label := RemovedLabel (count r) |}]) removed).

Definition movedRanges (txt : jsstring) (moved : list Moved) : list DecorationOptions :=
  concat (map (fun mv : Moved =>
    if start mv >? end_ mv then []
    else
      let clampedStart := Z.max 0 (Z.min (start mv) (lineCount txt - 1)) in
      let clampedEnd := Z.max 0 (Z.min (end_ mv) (lineCount txt - 1)) in
      [{| range := {| rstart := {| line := clampedStart; character := 0 |};
                      rend := rend (lineRange txt clampedEnd) |};
          label := MovedLabel (fromStart mv + 1) (fromEnd mv + 1) |}]) moved).

(** The callback of the release timeout: clear the three sets, then
    dispose the three types. *)
Definition release (types : list nat) (d : gmap nat (list DecorationOptions))
  : gmap nat (list DecorationOptions) :=
  fold_left (fun d t => delete t d) types d.

(** [replaceDocumentWithHighlight(editor, newText)], called at time [now]. *)
Definition replaceDocumentWithHighlight (now : Z) (newText : jsstring)
           (e : Editor) : Editor :=
  let oldText := text e in
  let h := computeChangeHints oldText newText in
  if lineCount newText =? 0 then
    {| text := newText; decorations := decorations e;
       nextType := nextType e; timeouts := timeouts e |}
  else
    let addedType := nextType e in
    let removedType := (nextType e + 1)%nat in
    let movedType := (nextType e + 2)%nat in
    {| text := newText;
       decorations :=
         <[movedType := movedRanges newText (moved h)]>
           (<[removedType := removedRanges newText (removed h)]>
              (<[addedType := addedRanges newText (added h)]> (decorations e)));
       nextType := (nextType e + 3)%nat;
       timeouts := timeouts e ++ [(now + DISPOSE_MS, [addedType; removedType; movedType])] |}.

(** The host runs the release timeouts that are due at [now]. *)
Definition runTimeouts (now : Z) (e : Editor) : Editor :=
  let due := List.filter (fun t => t.1 <=? now) (timeouts e) in
  let rest := List.filter (fun t => negb (t.1 <=? now)) (timeouts e) in
  {| text := text e;
     decorations := fold_left (fun d t => release t.2 d) due (decorations e);
     nextType := nextType e;
     timeouts := rest |}.

Inductive Op :=
| Apply (newText : jsstring)
| Tick.

Definition step (now : Z) (op : Op) (e : Editor) : Editor :=
  match op with
  | Apply newText => replaceDocumentWithHighlight now newText e
  | Tick => runTimeouts now e
  end.

Definition runOps (ops : list (Z * Op)) (e : Editor) : Editor :=
  fold_left (fun e o => step o.1 o.2 e) ops e.

(** An editor showing [txt] with no decoration. *)
Definition fresh (txt : jsstring) : Editor :=
  {| text := txt; decorations := ∅; nextType := 0; timeouts := [] |}.

End Highlight.

Import Highlight.

(* ================================================================== *)
(** ** Facts about the JavaScript string operations *)
(* ================================================================== *)

Example js_lit : js "a\nb\r\n c" = [97; 10; 98; 13; 10; 32; 99]%N.
Proof. reflexivity. Qed.

Example split_lit :
  split (js "a\nb\r\nc\rd\n") = [js "a"; js "b"; js "c\rd"; js ""].
Proof. reflexivity. Qed.

Lemma split_nonempty (s : jsstring) : (1 <= length (split s))%nat.
Proof.
  induction s as [|c r IH]; simpl; [lia|].
  destruct (_ && _)%bool; [exact IH|].
  destruct (c =? LF)%N; simpl; [lia|].
  destruct (split r); simpl; lia.
Qed.

Lemma hostLines_nonempty (s : jsstring) : (1 <= length (hostLines s))%nat.
Proof.
  induction s as [|c r IH]; simpl; [lia|].
  destruct (_ && _)%bool; [exact IH|].
  destruct (_ || _)%bool; simpl; [lia|].
  destruct (hostLines r); simpl; lia.
Qed.

(* ================================================================== *)
(** ** The diff engine *)
(* ================================================================== *)

Section WalkFacts.
Variables A B : list jsstring.
Variable dp : list Z.

(** Every iteration advances one of the two cursors by one. *)
Lemma walkStep_advances (w : Walk) :
  (wi (walkStep A B dp w) + wj (walkStep A B dp w) >= wi w + wj w + 1)%nat
  /\ (wi w <= wi (walkStep A B dp w) <= wi w + 1)%nat
  /\ (wj w <= wj (walkStep A B dp w) <= wj w + 1)%nat.
Proof.
  unfold walkStep.
  destruct (sameLine A B (wi w) (wj w)); simpl; [lia|].
  destruct (_ >=? _); simpl; lia.
Qed.

(** The loop has exited when the fuel [computeChangeHints] gives it is
    spent: the guard is false in the state it returns. *)
Lemma walkLoop_exits (fuel : nat) (w : Walk) :
  ((length A - wi w) + (length B - wj w) <= fuel)%nat ->
  walkGuard A B (walkLoop A B fuel dp w) = false.
Proof.
  revert w; induction fuel as [|fuel IH]; intros w Hf; simpl.
  - unfold walkGuard.
    apply andb_false_iff.
    destruct (Nat.ltb_spec (wi w) (length A)); [|now left].
    destruct (Nat.ltb_spec (wj w) (length B)); [lia|now right].
  - destruct (walkGuard A B w) eqn:Hg; [|exact Hg].
    apply IH.
    unfold walkGuard in Hg. apply andb_true_iff in Hg as [Hi Hj].
    apply Nat.ltb_lt in Hi, Hj.
    pose proof (walkStep_advances w). lia.
Qed.

(** More fuel than needed changes nothing. *)
Lemma walkLoop_stable (fuel extra : nat) (w : Walk) :
  walkGuard A B (walkLoop A B fuel dp w) = false ->
  walkLoop A B (fuel + extra) dp w = walkLoop A B fuel dp w.
Proof.
  revert w; induction fuel as [|fuel IH]; intros w Hg; simpl in *.
  - destruct extra; simpl; [reflexivity|]. now rewrite Hg.
  - destruct (walkGuard A B w); [now apply IH|reflexivity].
Qed.
End WalkFacts.

Lemma lcsHints_exits (A B : list jsstring) :
  walkGuard A B (walkLoop A B (length A + length B) (fillTable A B) (walkInit)) = false.
Proof. apply walkLoop_exits. simpl. lia. Qed.

Lemma ushr1_half (z : Z) : 0 <= z < 4294967296 -> ushr1 z = z / 2.
Proof.
  intros Hz. unfold ushr1. rewrite Z.mod_small by exact Hz.
  now rewrite Z.shiftr_div_pow2.
Qed.

(** The binary search has exited when the fuel [offsetToLine] gives it is
    spent: any more fuel gives the same line (array lengths are below
    2^31). *)
Lemma searchLoop_stable (offs : list Z) (off : Z) (fuel extra : nat) :
  forall lo hi ans,
    0 <= lo -> hi < 2147483648 -> hi - lo + 1 <= Z.of_nat fuel ->
    searchLoop (fuel + extra) offs off lo hi ans
    = searchLoop fuel offs off lo hi ans.
Proof.
  induction fuel as [|fuel IH]; intros lo hi ans Hlo Hhi Hf.
  - destruct extra; simpl; [reflexivity|].
    destruct (Z.leb_spec lo hi); [lia|reflexivity].
  - simpl. destruct (Z.leb_spec lo hi) as [Hle|]; [|reflexivity].
    rewrite ushr1_half by lia.
    assert (lo <= (lo + hi) / 2 <= hi).
    { split; [apply Z.div_le_lower_bound|apply Z.div_le_upper_bound]; lia. }
    destruct (_ <=? off); apply IH; lia.
Qed.

Lemma branchOf_general (n m : nat) :
  (1 <= n)%nat -> (1 <= m)%nat -> branchOf n m = General.
Proof.
  intros Hn Hm. unfold branchOf.
  destruct n; [lia|]. destruct m; [lia|]. reflexivity.
Qed.

(** On line arrays that agree wherever both have a line (equal arrays, or
    one array followed by more lines) the walk only matches: it stays on
    the diagonal and records nothing, whatever the table holds. *)
Lemma walk_common_prefix (A B : list jsstring) (dp : list Z) (fuel i : nat) :
  (forall k, (k < length A)%nat -> (k < length B)%nat -> A !! k = B !! k) ->
  exists i',
    walkLoop A B fuel dp
      {| wi := i; wj := i; addStart := -1; delCount := 0;
         wadded := []; wremoved := [] |}
    = {| wi := i'; wj := i'; addStart := -1; delCount := 0;
         wadded := []; wremoved := [] |}.
Proof.
  intros Hsame. revert i; induction fuel as [|fuel IH]; intros i; simpl.
  - now exists i.
  - destruct (walkGuard A B _) eqn:Hg; [|now exists i].
    unfold walkGuard in Hg. cbn in Hg.
    apply andb_true_iff in Hg as [Hi Hj]. apply Nat.ltb_lt in Hi, Hj.
    unfold walkStep; simpl.
    unfold sameLine. rewrite bool_decide_eq_true_2 by now apply Hsame.
    simpl. apply IH.
Qed.

(** Lines that follow the common lines, in the new text or in the old one,
    leave no trace: the loop has exited before it looks at them. *)
Lemma tail_dropped (A T : list jsstring) :
  (1 <= length A)%nat ->
  addedRemoved A (A ++ T) = ([], []) /\ addedRemoved (A ++ T) A = ([], []).
Proof.
  intros HA. unfold addedRemoved.
  rewrite !branchOf_general by (rewrite ?length_app; lia).
  unfold lcsHints, walkInit. split.
  - destruct (walk_common_prefix A (A ++ T) (fillTable A (A ++ T))
                (length A + length (A ++ T)) 0) as [i' ->]; [|reflexivity].
    intros k Hk _. now rewrite lookup_app_l.
  - destruct (walk_common_prefix (A ++ T) A (fillTable (A ++ T) A)
                (length (A ++ T) + length A) 0) as [i' ->]; [|reflexivity].
    intros k _ Hk. now rewrite lookup_app_l.
Qed.

(** C9.  For every text X, computing the change hints of X against itself
    gives no added span, no removed entry and no moved block. *)
Theorem identical_texts_no_hints (X : jsstring) :
  computeChangeHints X X = {| added := []; removed := []; moved := [] |}.
Proof.
  unfold computeChangeHints, addedRemoved.
  rewrite branchOf_general by apply split_nonempty.
  unfold lcsHints.
  destruct (walk_common_prefix (split X) (split X)
              (fillTable (split X) (split X))
              (length (split X) + length (split X)) 0) as [i' Hw];
    [reflexivity|].
  unfold walkInit. rewrite Hw. reflexivity.
Qed.

(** C10.  Splitting a string on [/\r?\n/] gives at least one line, so for all
    inputs both line arrays of the diff are non-empty and the arm taken is
    the general one, never the arms guarded by [n === 0] and [m === 0];
    and the document has at least one line after the replacement, so the
    guard [lineCount === 0] never holds and the call always goes on to
    create its three decoration types. *)
Theorem degenerate_guards_unreachable (oldText newText : jsstring) :
  (1 <= length (split oldText))%nat
  /\ (1 <= length (split newText))%nat
  /\ branchOf (length (split oldText)) (length (split newText)) = General
  /\ (lineCount newText =? 0) = false
  /\ (forall now e,
         nextType (replaceDocumentWithHighlight now newText e) = (nextType e + 3)%nat).
Proof.
  pose proof (split_nonempty oldText) as Ho.
  pose proof (split_nonempty newText) as Hn.
  assert (Hl : (lineCount newText =? 0) = false).
  { unfold lineCount. pose proof (hostLines_nonempty newText). lia. }
  repeat split; try assumption.
  - now apply branchOf_general.
  - intros now e. unfold replaceDocumentWithHighlight. now rewrite Hl.
Qed.

(** *** The shape of the hints *)

(** Spans are in increasing order with an unmarked line between two of
    them. *)
Definition spansOrdered (l : list (Z * Z)) : Prop :=
  StronglySorted (fun a b => a.2 + 1 < b.1) l.

Lemma spansOrdered_snoc (l : list (Z * Z)) (x : Z * Z) :
  spansOrdered l -> Forall (fun a => a.2 + 1 < x.1) l -> spansOrdered (l ++ [x]).
Proof.
  unfold spansOrdered. induction 1 as [|a l Hl IH Ha]; intros Hx; simpl.
  - repeat constructor.
  - inversion Hx as [|? ? Hax Hlx]; subst. constructor; [now apply IH|].
    apply Forall_app. split; [exact Ha|]. now repeat constructor.
Qed.

Ltac shape_solve Hsp Hrm Hord :=
  first
    [ lia
    | assumption
    | apply spansOrdered_snoc;
      [exact Hord|eapply Forall_impl; [exact Hsp|]; cbn; intros; lia]
    | apply Forall_app; split;
      [eapply Forall_impl; [first [exact Hsp|exact Hrm]|]; cbn; intros; lia
      |repeat constructor; cbn; lia]
    | eapply Forall_impl; [first [exact Hsp|exact Hrm]|]; cbn; intros; lia ].

Section WalkShape.
Variables A B : list jsstring.
Variable dp : list Z.

(** Where the next span can start: at the open run, or at the cursor. *)
Definition spanBound (w : Walk) : Z :=
  if bool_decide (addStart w = -1) then Z.of_nat (wj w) else addStart w.

Definition walkInv (w : Walk) : Prop :=
  (wj w <= length B)%nat
  /\ (addStart w = -1 \/ 0 <= addStart w < Z.of_nat (wj w))
  /\ Forall (fun a => 0 <= a.1 <= a.2 /\ a.2 + 2 <= spanBound w) (wadded w)
  /\ spansOrdered (wadded w)
  /\ 0 <= delCount w
  /\ Forall (fun r => 1 <= count r /\ 0 <= anchor r < Z.of_nat (wj w)) (wremoved w).

Lemma walkInv_init : walkInv walkInit.
Proof.
  unfold walkInv; cbn. split_and!; solve [constructor|lia].
Qed.

Lemma walkInv_step (w : Walk) :
  walkGuard A B w = true -> walkInv w -> walkInv (walkStep A B dp w).
Proof.
  unfold walkGuard. rewrite andb_true_iff, !Nat.ltb_lt.
  intros [_ Hj] (Hm & Hs & Hsp & Hord & Hd & Hrm).
  unfold walkStep, walkInv, spanBound in *.
  destruct (sameLine A B (wi w) (wj w)); [|destruct (_ >=? _)];
    cbn [wi wj addStart delCount wadded wremoved];
    repeat case_bool_decide; try lia;
    split_and!; shape_solve Hsp Hrm Hord.
Qed.

Lemma walkInv_loop (fuel : nat) (w : Walk) :
  walkInv w -> walkInv (walkLoop A B fuel dp w).
Proof.
  revert w; induction fuel as [|fuel IH]; intros w H; simpl; [exact H|].
  destruct (walkGuard A B w) eqn:Hg; [|exact H].
  now apply IH, walkInv_step.
Qed.

Lemma walkFlush_shape (w : Walk) :
  (1 <= length B)%nat -> walkInv w ->
  let m := Z.of_nat (length B) in
  spansOrdered (walkFlush B w).1
  /\ Forall (fun a => 0 <= a.1 <= a.2 /\ a.2 < m) (walkFlush B w).1
  /\ Forall (fun r => 1 <= count r /\ 0 <= anchor r < m) (walkFlush B w).2.
Proof.
  intros Hb (Hm & Hs & Hsp & Hord & Hd & Hrm) m.
  unfold walkFlush, spanBound in *. cbn [fst snd].
  repeat case_bool_decide; try lia;
    split_and!; shape_solve Hsp Hrm Hord.
Qed.
End WalkShape.

(** The added spans are in order, disjoint and inside the new text, and a
    removed entry counts at least one line and is anchored inside the new
    text. *)
Lemma hints_shape (oldText newText : jsstring) :
  let h := computeChangeHints oldText newText in
  let m := Z.of_nat (length (split newText)) in
  spansOrdered (added h)
  /\ Forall (fun a => 0 <= a.1 <= a.2 /\ a.2 < m) (added h)
  /\ Forall (fun r => 1 <= count r /\ 0 <= anchor r < m) (removed h).
Proof.
  unfold computeChangeHints, addedRemoved. cbn.
  rewrite branchOf_general by apply split_nonempty.
  unfold lcsHints.
  apply walkFlush_shape; [apply split_nonempty|].
  apply walkInv_loop, walkInv_init.
Qed.

Example middle_line_removed :
  computeChangeHints (js "a\nb\nc") (js "a\nc")
  = {| added := []; removed := [{| anchor := 1; count := 1 |}]; moved := [] |}.
Proof. reflexivity. Qed.

Example middle_line_added :
  computeChangeHints (js "a\nc") (js "a\nb\nc")
  = {| added := [(1, 1)]; removed := []; moved := [] |}.
Proof. reflexivity. Qed.

(** C2 (what the code does).  The old text being empty, its split is the
    one-element array holding the empty line, so the arm for [n === 0] is
    not taken: the walk deletes that empty line and leaves the three new
    lines unmarked. *)
Theorem empty_old_text_hints :
  split (js "") = [js ""]
  /\ computeChangeHints (js "") (js "a\nb\nc")
     = {| added := []; removed := [{| anchor := 2; count := 1 |}]; moved := [] |}.
Proof. split; reflexivity. Qed.

(** C3 (what the code does).  The walk stops as soon as one of the two texts
    is exhausted and nothing looks at the rest of the other: a line appended
    to the new text is in no added span although the old text does not have
    it, lines dropped from the end of the old text give no removed entry,
    and a replaced last line is counted as removed only. *)
Theorem trailing_lines_unaccounted :
  computeChangeHints (js "a") (js "a\nb")
    = {| added := []; removed := []; moved := [] |}
  /\ ~ In (js "b") (split (js "a"))
  /\ computeChangeHints (js "a\nb") (js "a")
    = {| added := []; removed := []; moved := [] |}
  /\ computeChangeHints (js "a") (js "b")
    = {| added := []; removed := [{| anchor := 0; count := 1 |}]; moved := [] |}.
Proof.
  repeat split; try reflexivity.
  simpl. intros [H|[]]. discriminate H.
Qed.

(** C7 (as stated, refuted).  No moved entry covers the two-line block
    "foo", "bar" (lines 1 to 2 of the new text, lines 2 to 3 of the old). *)
Lemma moved_block_not_flagged :
  ~ exists mv,
      In mv (moved (computeChangeHints (js "x\ny\nfoo\nbar\nz")
                                       (js "x\nfoo\nbar\ny\nz")))
      /\ start mv = 1 /\ end_ mv = 2.
Proof.
  intros [mv [Hin [Hs _]]].
  vm_compute in Hin. destruct Hin as [<-|[]]. discriminate Hs.
Qed.

(** C7 (amended).  The longest common subsequence keeps "x", "foo", "bar",
    "z", so the line that changes place is "y": it is removed before
    "foo" (anchor 1), added as the span (3,3), and that one-line span is
    flagged as moved from line 1 of the old text. *)
Theorem moved_line_flagged :
  computeChangeHints (js "x\ny\nfoo\nbar\nz") (js "x\nfoo\nbar\ny\nz")
  = {| added := [(3, 3)];
       removed := [{| anchor := 1; count := 1 |}];
       moved := [{| start := 3; end_ := 3; fromStart := 1; fromEnd := 1 |}] |}
  /\ split (js "x\ny\nfoo\nbar\nz") !! 1%nat = Some (js "y")
  /\ split (js "x\nfoo\nbar\ny\nz") !! 3%nat = Some (js "y").
Proof. repeat split; reflexivity. Qed.

(* ================================================================== *)
(** ** Overlap stitching *)
(* ================================================================== *)

Lemma startsWith_prefix (s p : jsstring) :
  startsWith s p = true <-> p `prefix_of` s.
Proof.
  revert s; induction p as [|c p IH]; intros s; simpl.
  - split; [intros _; apply prefix_nil|now destruct s].
  - destruct s as [|d s].
    + split; [discriminate|]. intros [k Hk]. discriminate Hk.
    + simpl. rewrite andb_true_iff, N.eqb_eq, IH. split.
      * intros [-> Hp]. now apply prefix_cons.
      * intros [k Hk]. injection Hk as -> ->. split; [reflexivity|].
        now exists k.
Qed.

Lemma endsWith_suffix (s p : jsstring) :
  endsWith s p = true <-> p `suffix_of` s.
Proof.
  unfold endsWith. rewrite startsWith_prefix. split.
  - intros [k Hk]. exists (rev k).
    rewrite <- (rev_involutive s), Hk, rev_app_distr, rev_involutive.
    reflexivity.
  - intros [k ->]. exists (rev k). apply rev_app_distr.
Qed.

(** The loop returns the largest candidate length, at most its bound,
    whose prefix of [next] ends [base]. *)
Lemma overlap_greatest (base next : jsstring) (i : nat) :
  (overlap base next i <= i)%nat
  /\ take (overlap base next i) next `suffix_of` base
  /\ (forall j, (overlap base next i < j <= i)%nat ->
                ~ take j next `suffix_of` base).
Proof.
  induction i as [|i [IHle [IHsuf IHmax]]]; simpl.
  - split_and!; [lia|apply suffix_nil|]. intros j Hj. lia.
  - destruct (endsWith base (take (S i) next)) eqn:He.
    + split_and!; [lia|now apply endsWith_suffix|]. intros j Hj. lia.
    + split_and!; [lia|exact IHsuf|].
      intros j Hj Hs.
      destruct (decide (j = S i)) as [->|Hne].
      * apply endsWith_suffix in Hs. simpl in Hs. congruence.
      * apply (IHmax j); [lia|exact Hs].
Qed.

Definition cfgOn : Config := {| trailingSilenceMs := Ms 1000; hasOnInterim := true |}.

(** C4.  Stitching appends to the committed text what remains of the new
    text after its longest prefix that is also a suffix of the committed
    text; a final transcription event commits its (trimmed) text this way;
    "hello wor" then "world" gives "hello world". *)
Theorem stitch_longest_overlap (base next : jsstring) :
  (exists k,
      (k <= Nat.min (length base) (length next))%nat
      /\ take k next `suffix_of` base
      /\ (forall j, (k < j <= Nat.min (length base) (length next))%nat ->
                    ~ take j next `suffix_of` base)
      /\ appendWithOverlap base next = base ++ drop k next)
  /\ (forall cfg now t sf s,
         opened s = true -> truthy (trim t) = true ->
         committed (handle cfg now (Transcript t true sf) s)
         = appendWithOverlap (committed s) (trim t))
  /\ appendWithOverlap (js "hello wor") (js "world") = js "hello world"
  /\ committed (run cfgOn [(0, Open);
                           (100, Transcript (js "hello wor") true false);
                           (900, Transcript (js "world") true false)] init)
     = js "hello world".
Proof.
  split; [|split; [|split; reflexivity]].
  - unfold appendWithOverlap. destruct base as [|b base].
    + exists 0%nat. simpl. split_and!; [lia|apply suffix_nil| |reflexivity].
      intros j Hj. lia.
    + set (bs := b :: base).
      destruct (overlap_greatest bs next (Nat.min (length bs) (length next)))
        as [Hle [Hsuf Hmax]].
      exists (overlap bs next (Nat.min (length bs) (length next))).
      split_and!; [assumption..|reflexivity].
  - intros cfg now t sf s Ho Ht. simpl. rewrite Ho.
    unfold onTranscript. rewrite Ht. simpl.
    assert (Hc : (if truthy (committed s)
                  then appendWithOverlap (committed s) (trim t) else trim t)
                 = appendWithOverlap (committed s) (trim t)).
    { unfold appendWithOverlap. now destruct (committed s). }
    destruct sf; simpl.
    + unfold safeResolve. simpl. destruct (settled s); simpl; exact Hc.
    + destruct (hasOnInterim cfg); simpl; exact Hc.
Qed.

(* ================================================================== *)
(** ** Trimmed strings *)
(* ================================================================== *)

Definition noLead (x : jsstring) : Prop :=
  match x with c :: _ => isWhiteSpace c = false | [] => True end.

Definition noTrail (x : jsstring) : Prop := noLead (rev x).

(** Neither the first nor the last code unit is white space. *)
Definition tidy (x : jsstring) : Prop := noLead x /\ noTrail x.

Lemma trimStart_noLead (x : jsstring) : noLead (trimStart x).
Proof.
  induction x as [|c x IH]; simpl; [exact I|].
  destruct (isWhiteSpace c) eqn:Hc; [exact IH|exact Hc].
Qed.

Lemma trimStart_id (x : jsstring) : noLead x -> trimStart x = x.
Proof. destruct x as [|c x]; simpl; [reflexivity|]. now intros ->. Qed.

Lemma trimStart_suffix (x : jsstring) : trimStart x `suffix_of` x.
Proof.
  induction x as [|c x IH]; simpl; [reflexivity|].
  destruct (isWhiteSpace c); [now apply suffix_cons_r|reflexivity].
Qed.

Lemma noLead_app (x y : jsstring) : x <> [] -> noLead x -> noLead (x ++ y).
Proof. destruct x; [congruence|]. now simpl. Qed.

Lemma noLead_prefix (x y : jsstring) : noLead (x ++ y) -> noLead x.
Proof. destruct x; [intros _; exact I|]. now simpl. Qed.

Lemma tidy_nil : tidy [].
Proof. split; exact I. Qed.

Lemma trim_tidy (t : jsstring) : tidy (trim t).
Proof.
  unfold trim, trimEnd, tidy, noTrail. split.
  - destruct (trimStart_suffix (rev (trimStart t))) as [k Hk].
    apply (noLead_prefix _ (rev k)).
    rewrite <- rev_app_distr, <- Hk, rev_involutive.
    apply trimStart_noLead.
  - rewrite rev_involutive. apply trimStart_noLead.
Qed.

Lemma tidy_trim (x : jsstring) : tidy x -> trim x = x.
Proof.
  intros [Hl Ht]. unfold trim, trimEnd.
  rewrite (trimStart_id x Hl), (trimStart_id (rev x) Ht).
  apply rev_involutive.
Qed.

Lemma tidy_join (a b : jsstring) :
  a <> [] -> b <> [] -> tidy a -> tidy b -> tidy (a ++ SP :: b).
Proof.
  intros Ha Hb [Hal _] [_ Hbt]. split.
  - now apply noLead_app.
  - unfold noTrail in *. rewrite rev_app_distr. simpl. rewrite <- app_assoc.
    apply noLead_app; [|exact Hbt].
    intros Hr. apply Hb. rewrite <- (rev_involutive b), Hr. reflexivity.
Qed.

Lemma tidy_stitch (a b : jsstring) (k : nat) :
  a <> [] -> tidy a -> tidy b -> tidy (a ++ drop k b).
Proof.
  intros Ha [Hal Hat] [_ Hbt]. split.
  - now apply noLead_app.
  - unfold noTrail in *. rewrite rev_app_distr.
    destruct (drop k b) as [|d r] eqn:Hd; [exact Hat|].
    apply noLead_app.
    + intros Hr. apply (f_equal (@rev N)) in Hr.
      rewrite rev_involutive in Hr. discriminate Hr.
    + apply (noLead_prefix _ (rev (take k b))).
      rewrite <- rev_app_distr, <- Hd, take_drop. exact Hbt.
Qed.

Lemma tidy_appendWithOverlap (a b : jsstring) :
  tidy a -> tidy b -> tidy (appendWithOverlap a b).
Proof.
  intros Ha Hb. unfold appendWithOverlap.
  destruct a as [|c a]; [exact Hb|].
  cbn [truthy negb]. now apply tidy_stitch.
Qed.

Lemma truthy_true (x : jsstring) : truthy x = true <-> x <> [].
Proof. destruct x; simpl; split; congruence. Qed.

(* ================================================================== *)
(** ** The listening session: invariants *)
(* ================================================================== *)

(** The promise is settled exactly when [settled] is set, by one call of
    [resolve] or [reject]; [finalTranscript] is only written on the way to
    a resolution. *)
Definition promiseInv (s : Session) : Prop :=
  (settled s = false /\ settlements s = 0%nat /\ outcome s = None
   /\ finalTranscript s = [])
  \/ (settled s = true /\ settlements s = 1%nat /\ outcome s <> None).

(** At most one timeout is armed, and [idleTimer] is its handle. *)
Definition timerInv (s : Session) : Prop :=
  pending s = []
  \/ exists h due, idleTimer s = Some h /\ pending s = [(h, due)].

(** The preview and the committed text are trimmed. *)
Definition tidyInv (s : Session) : Prop :=
  tidy (utterance s) /\ tidy (committed s).

Definition sessionInv (s : Session) : Prop :=
  promiseInv s /\ timerInv s /\ tidyInv s.

(** What [safeResolve], [safeReject] and the idle callback leave alone. *)
Definition frame (s : Session) :=
  (opened s, utterance s, lastTxt s, committed s, idleTimer s, pending s,
   nextHandle s, interims s).

Lemma safeResolve_frame (txt : jsstring) (s : Session) :
  frame (safeResolve txt s) = frame s.
Proof. unfold safeResolve. now destruct (settled s). Qed.

Lemma safeReject_frame (s : Session) : frame (safeReject s) = frame s.
Proof. unfold safeReject. now destruct (settled s). Qed.

Lemma frame_inv (s s' : Session) :
  frame s' = frame s -> timerInv s -> tidyInv s -> timerInv s' /\ tidyInv s'.
Proof.
  unfold frame, timerInv, tidyInv.
  intros Hf. injection Hf as _ -> _ -> -> -> _ _. tauto.
Qed.

Lemma idleCallback_frame (s : Session) : frame (idleCallback s) = frame s.
Proof.
  unfold idleCallback. destruct (_ && _)%bool; [|reflexivity].
  now rewrite safeResolve_frame.
Qed.

Lemma idleCallbacks_frame {X} (l : list X) (s : Session) :
  frame (fold_left (fun s _ => idleCallback s) l s) = frame s.
Proof.
  revert s; induction l as [|x l IH]; intros s; simpl; [reflexivity|].
  now rewrite IH, idleCallback_frame.
Qed.

Lemma promiseInv_safeResolve (txt ft : jsstring) (s : Session) :
  promiseInv s -> promiseInv (safeResolve txt (withFinalTranscript s ft)).
Proof.
  unfold promiseInv, safeResolve. destruct s; cbn.
  intros [(-> & -> & -> & ->)|(-> & -> & H)]; cbn; right; now split_and!.
Qed.

Lemma promiseInv_safeResolve_keep (txt : jsstring) (s : Session) :
  promiseInv s -> promiseInv (safeResolve txt s).
Proof.
  unfold promiseInv, safeResolve. destruct s; cbn.
  intros [(-> & -> & -> & ->)|(-> & -> & H)]; cbn; right; now split_and!.
Qed.

Lemma promiseInv_safeReject (s : Session) :
  promiseInv s -> promiseInv (safeReject s).
Proof.
  unfold promiseInv, safeReject. destruct s; cbn.
  intros [(-> & -> & -> & ->)|(-> & -> & H)]; cbn; right; now split_and!.
Qed.

Lemma promiseInv_idleCallback (s : Session) :
  promiseInv s -> promiseInv (idleCallback s).
Proof.
  intros H. unfold idleCallback. destruct (_ && _)%bool; [|exact H].
  now apply promiseInv_safeResolve.
Qed.

Lemma promiseInv_idleCallbacks {X} (l : list X) (s : Session) :
  promiseInv s -> promiseInv (fold_left (fun s _ => idleCallback s) l s).
Proof.
  revert s; induction l as [|x l IH]; intros s H; simpl; [exact H|].
  now apply IH, promiseInv_idleCallback.
Qed.

(** [resetIdle] leaves exactly the timeout it arms. *)
Lemma resetIdle_pending (cfg : Config) (now : Z) (s : Session) :
  timerInv s ->
  pending (resetIdle cfg now s) = [(nextHandle s, now + timeoutDelay (idleDelay cfg))]
  /\ idleTimer (resetIdle cfg now s) = Some (nextHandle s).
Proof.
  unfold timerInv, resetIdle. destruct s; cbn.
  intros [->|(h & due & -> & ->)]; cbn.
  - split; [|reflexivity]. now destruct idleTimer0.
  - now rewrite Nat.eqb_refl.
Qed.

Lemma sessionInv_init : sessionInv init.
Proof.
  split_and!.
  - left. now split_and!.
  - now left.
  - split; apply tidy_nil.
Qed.

Lemma sessionInv_onTranscript cfg now t f sf s :
  sessionInv s -> sessionInv (onTranscript cfg now t f sf s).
Proof.
  intros (Hp & Ht & Hu & Hc). unfold onTranscript.
  destruct (truthy (trim t)) eqn:Htxt; cbn [negb]; [|now split_and!].
  apply truthy_true in Htxt. pose proof (trim_tidy t) as Htidy.
  set (s1 := if f then _ else _).
  assert (H1 : promiseInv s1 /\ timerInv s1 /\ tidyInv s1).
  { subst s1. destruct f.
    - split_and!; [destruct s; exact Hp|destruct s; exact Ht|].
      unfold tidyInv; cbn.
      destruct (truthy (committed s));
        split; try exact Htidy; now apply tidy_appendWithOverlap.
    - split_and!; [destruct s; exact Hp|destruct s; exact Ht|].
      unfold tidyInv; cbn. split; [|exact Hc].
      destruct (truthy (committed s)) eqn:Hcs; [|exact Htidy].
      apply truthy_true in Hcs.
      now apply tidy_join. }
  clearbody s1. destruct H1 as (Hp1 & Ht1 & Hu1 & Hc1).
  destruct (resetIdle_pending cfg now s1 Ht1) as [Hpend Hidle].
  set (s2 := resetIdle cfg now s1) in *.
  assert (H2 : promiseInv s2 /\ timerInv s2 /\ tidyInv s2).
  { split_and!.
    - subst s2. destruct s1; exact Hp1.
    - right. eauto.
    - subst s2. destruct s1; split; [exact Hu1|exact Hc1]. }
  clearbody s2. destruct H2 as (Hp2 & Ht2 & Hu2 & Hc2).
  destruct sf.
  - pose proof (safeResolve_frame (trim (utterance s2))
                  (withFinalTranscript s2 (trim (utterance s2)))) as Hf.
    unfold frame in Hf. injection Hf as _ Hfu _ Hfc Hfi Hfp _ _.
    split_and!.
    + now apply promiseInv_safeResolve.
    + unfold timerInv. rewrite Hfi, Hfp. destruct s2; exact Ht2.
    + unfold tidyInv. rewrite Hfu, Hfc. destruct s2; split; [exact Hu2|exact Hc2].
  - destruct (hasOnInterim cfg); [|now split_and!].
    destruct s2; now split_and!.
Qed.

Lemma sessionInv_runTimers now s : sessionInv s -> sessionInv (runTimers now s).
Proof.
  intros (Hp & Ht & Hu & Hc). unfold runTimers.
  set (s0 := withTimers _ _ _ _).
  pose proof (idleCallbacks_frame
                (List.filter (fun t : nat * Z => t.2 <=? now) (pending s)) s0) as Hf.
  unfold frame in Hf. injection Hf as _ Hfu _ Hfc Hfi Hfp _ _.
  split_and!.
  - apply promiseInv_idleCallbacks. destruct s; exact Hp.
  - unfold timerInv. rewrite Hfi, Hfp. subst s0. cbn.
    destruct Ht as [->|(h & due & Hi & ->)]; [now left|].
    cbn. destruct (due <=? now); cbn; [now left|right; eauto].
  - unfold tidyInv. rewrite Hfu, Hfc. destruct s; split; [exact Hu|exact Hc].
Qed.

Lemma sessionInv_handle cfg now ev s :
  sessionInv s -> sessionInv (handle cfg now ev s).
Proof.
  intros H. pose proof H as (Hp & Ht & Hti).
  assert (Hrej : sessionInv (safeReject s)).
  { split; [now apply promiseInv_safeReject|].
    apply (frame_inv s); [apply safeReject_frame|assumption..]. }
  destruct ev; cbn.
  - destruct s; exact H.
  - destruct (opened s); [now apply sessionInv_onTranscript|exact H].
  - destruct (opened s); [|exact H].
    unfold onClose. destruct (settled s) eqn:Hs; cbn; [exact H|].
    split; [now apply promiseInv_safeResolve_keep|].
    apply (frame_inv s); [apply safeResolve_frame|assumption..].
  - exact Hrej.
  - destruct (opened s); exact H.
  - destruct (opened s); exact H.
  - destruct (opened s); [exact Hrej|exact H].
  - now apply sessionInv_runTimers.
Qed.

Lemma sessionInv_run cfg evs s : sessionInv s -> sessionInv (run cfg evs s).
Proof.
  revert s; induction evs as [|e evs IH]; intros s H; simpl; [exact H|].
  now apply IH, sessionInv_handle.
Qed.

Lemma sessionInv_reachable cfg evs : sessionInv (run cfg evs init).
Proof. apply sessionInv_run, sessionInv_init. Qed.

(* ================================================================== *)
(** ** The listening session: resolution *)
(* ================================================================== *)

(** The promise as the caller sees it, with the calls that settled it. *)
Definition promise (s : Session) :=
  (settled s, outcome s, settlements s, closeCalls s).

Lemma safeResolve_settled txt s : settled s = true -> safeResolve txt s = s.
Proof. unfold safeResolve. now intros ->. Qed.

Lemma idleCallbacks_settled {X} (l : list X) (s : Session) :
  settled s = true -> fold_left (fun s _ => idleCallback s) l s = s.
Proof.
  intros Hs. induction l as [|x l IH]; simpl; [reflexivity|].
  unfold idleCallback at 2. now rewrite Hs.
Qed.

Lemma settled_handle cfg now ev s :
  settled s = true -> promise (handle cfg now ev s) = promise s.
Proof.
  intros Hs. destruct ev; cbn.
  - now destruct s.
  - destruct (opened s); [|reflexivity].
    unfold onTranscript. destruct (truthy (trim transcript)); cbn [negb]; [|reflexivity].
    destruct speech_final.
    + rewrite safeResolve_settled; destruct is_final; destruct s; cbn in *; now subst.
    + destruct (hasOnInterim cfg), is_final; destruct s; cbn in *; now subst.
  - destruct (opened s); [|reflexivity]. unfold onClose. now rewrite Hs.
  - unfold safeReject. now rewrite Hs.
  - now destruct (opened s).
  - now destruct (opened s).
  - destruct (opened s); [|reflexivity]. unfold safeReject. now rewrite Hs.
  - unfold runTimers. rewrite idleCallbacks_settled; now destruct s.
Qed.

Lemma settled_run cfg evs s :
  settled s = true -> promise (run cfg evs s) = promise s.
Proof.
  revert s; induction evs as [|e evs IH]; intros s Hs; simpl; [reflexivity|].
  pose proof (settled_handle cfg e.1 e.2 s Hs) as Hh.
  rewrite IH; [exact Hh|].
  unfold promise in Hh. injection Hh as -> _ _ _. exact Hs.
Qed.

(** C1 (as stated, refuted).  The speech-final event at 100 settles the
    session and leaves its idle timeout armed; the final event that arrives
    at 200 is handled all the same: it extends the committed text and the
    preview, calls [onInterim], and arms a new timeout. *)
Lemma late_event_is_handled :
  let s := run cfgOn [(0, Open); (100, Transcript (js "hello") true true)] init in
  let s' := handle cfgOn 200 (Transcript (js "world") true false) s in
  settled s = true
  /\ pending s = [(0%nat, 1300)]
  /\ committed s = js "hello" /\ committed s' = js "helloworld"
  /\ utterance s = js "hello" /\ utterance s' = js "helloworld"
  /\ interims s = [] /\ interims s' = [js "helloworld"]
  /\ pending s' = [(1%nat, 1400)]
  /\ s' <> s.
Proof.
  cbv zeta. split_and!; try reflexivity.
  intros H. apply (f_equal committed) in H. vm_compute in H. discriminate H.
Qed.

(** C1 (amended).  Once a session is settled its outcome is final: whatever
    arrives afterwards (transcription events, timeouts running, close,
    errors), [settled] stays set, the promise keeps the value it was
    settled with, [resolve] or [reject] has been called exactly once and
    [connection.close] is not called again. *)
Theorem settled_is_final (cfg : Config) (pre post : list (Z * Event)) :
  let s := run cfg pre init in
  let s' := run cfg post s in
  settled s = true ->
  settled s' = true
  /\ outcome s' = outcome s /\ outcome s <> None
  /\ settlements s' = 1%nat
  /\ closeCalls s' = closeCalls s.
Proof.
  intros s s' Hs.
  pose proof (settled_run cfg post s Hs) as Hp.
  unfold promise in Hp. fold s' in Hp. injection Hp as H1 H2 H3 H4.
  destruct (sessionInv_reachable cfg pre) as ([(Hf & _)|(_ & Hn & Ho)] & _).
  - fold s in Hf. congruence.
  - fold s in Hn, Ho. split_and!; congruence.
Qed.

Lemma settled_is_final_witness :
  let s := run cfgOn [(0, Open); (100, Transcript (js "hello") true true)] init in
  let s' := run cfgOn [(200, Transcript (js "world") true true);
                       (300, Close); (1400, Timers); (1500, Error)] s in
  settled s' = true
  /\ outcome s' = outcome s /\ outcome s <> None
  /\ settlements s' = 1%nat
  /\ closeCalls s' = closeCalls s.
Proof.
  exact (settled_is_final cfgOn
           [(0, Open); (100, Transcript (js "hello") true true)]
           [(200, Transcript (js "world") true true);
            (300, Close); (1400, Timers); (1500, Error)] eq_refl).
Defined.

(** Before resolution [finalTranscript] is still empty, so a close that
    comes first resolves with the empty string whatever was committed. *)
Lemma close_before_resolution cfg pre now :
  let s := run cfg pre init in
  opened s = true -> settled s = false ->
  outcome (handle cfg now Close s) = Some (Resolved []).
Proof.
  intros s Ho Hs.
  pose proof (sessionInv_reachable cfg pre) as Hinv. fold s in Hinv.
  clearbody s.
  destruct Hinv as ([(_ & _ & Hout & Hft)|(Hf & _)] & _); [|congruence].
  cbn. rewrite Ho. unfold onClose, safeResolve. rewrite Hs. cbn.
  rewrite Hft, Hout. reflexivity.
Qed.

(** C5 (what the code does).  After the final segment "hello" the committed
    text is "hello" and the session is not resolved; the close that follows
    resolves it with the empty string: the handler passes [finalTranscript],
    which is only written when the session resolves, not [committed]. *)
Theorem close_resolves_with_empty_text :
  let s := run cfgOn [(0, Open); (100, Transcript (js "hello") true false)] init in
  settled s = false
  /\ committed s = js "hello"
  /\ utterance s = js "hello"
  /\ finalTranscript s = js ""
  /\ outcome (handle cfgOn 200 Close s) = Some (Resolved (js "")).
Proof. cbv zeta. split_and!; reflexivity. Qed.

(* ================================================================== *)
(** ** The listening session: the idle timeout *)
(* ================================================================== *)

(** For a whole number of milliseconds that [setTimeout] takes as it is,
    the clamp of the setting to 100 ms does not show in the delay. *)
Lemma idleDelay_setting (cfg : Config) (T : Z) :
  trailingSilenceMs cfg = Ms T -> T + 200 <= TIMEOUT_MAX ->
  idleDelay cfg = Ms (Z.max 1200 (T + 200))
  /\ timeoutDelay (idleDelay cfg) = Z.max 1200 (T + 200).
Proof.
  intros HT Hmax. unfold idleDelay, trailingMsCfg, TIMEOUT_MAX in *. rewrite HT.
  unfold mathMax, plus, num, EXACT. cbn [timeoutDelay].
  destruct (Z.ltb_spec (Z.max 100 T) 9007199254740992); [|lia].
  destruct (Z.ltb_spec (Z.max 100 T + 200) 9007199254740992); [|lia].
  destruct (Z.ltb_spec (Z.max 1200 (Z.max 100 T + 200)) 9007199254740992); [|lia].
  replace (Z.max 1200 (Z.max 100 T + 200)) with (Z.max 1200 (T + 200)) by lia.
  split; [reflexivity|]. cbn [timeoutDelay]. unfold TIMEOUT_MAX.
  destruct (Z.leb_spec 1 (Z.max 1200 (T + 200))); [|lia].
  destruct (Z.leb_spec (Z.max 1200 (T + 200)) 2147483647); [|lia].
  reflexivity.
Qed.

(** What does not restart the idle timeout armed for [due], and leaves the
    session as it is: a transcription event whose text is blank, a chunk
    or the end of the audio input, and the timer phase of the host before
    [due]. *)
Definition silent (due : Z) (e : Z * Event) : bool :=
  match e.2 with
  | Transcript t _ _ => negb (truthy (trim t))
  | InputData | InputEnd => true
  | Timers => e.1 <? due
  | _ => false
  end.

(** A setting above the range of [setTimeout]. *)
Definition cfgLong : Config :=
  {| trailingSilenceMs := Ms 3000000000; hasOnInterim := true |}.

(** A transcription event with text leaves one armed timeout, the one it
    arms. *)
Lemma onTranscript_pending cfg now t f sf s :
  timerInv s -> truthy (trim t) = true ->
  pending (onTranscript cfg now t f sf s)
  = [(nextHandle s, now + timeoutDelay (idleDelay cfg))]
  /\ idleTimer (onTranscript cfg now t f sf s) = Some (nextHandle s).
Proof.
  intros Hti Ht. unfold onTranscript. rewrite Ht. cbn [negb].
  set (s1 := if f then _ else _).
  assert (H1 : timerInv s1 /\ nextHandle s1 = nextHandle s).
  { subst s1. destruct f; destruct s; split; solve [exact Hti|reflexivity]. }
  destruct H1 as [Hti1 Hn].
  destruct (resetIdle_pending cfg now s1 Hti1) as [Hp Hi].
  rewrite Hn in Hp, Hi. clearbody s1.
  set (s2 := resetIdle cfg now s1) in *. clearbody s2.
  destruct sf.
  - pose proof (safeResolve_frame (trim (utterance s2))
                  (withFinalTranscript s2 (trim (utterance s2)))) as Hf.
    unfold frame in Hf. injection Hf as _ _ _ _ -> -> _ _.
    destruct s2; split; assumption.
  - destruct (hasOnInterim cfg); destruct s2; split; assumption.
Qed.

(** With one armed timeout that is not yet due, the timer phase of the host
    changes nothing. *)
Lemma runTimers_not_due now s h due :
  pending s = [(h, due)] -> now < due -> runTimers now s = s.
Proof.
  intros Hp Hlt. unfold runTimers. rewrite Hp. cbn.
  destruct (Z.leb_spec due now); [lia|]. cbn.
  destruct s; cbn in *. now subst.
Qed.

#[local] Arguments trim : simpl never.

(** C6.  For a trailing silence setting that is a whole number T of
    milliseconds with T + 200 at most 2^31 - 1, a transcription event with
    text (what is left of the transcript after trimming) cancels the armed
    idle timeout and arms a new one, due max(1200, T + 200) ms later; it is
    then the only armed timeout.  When that timeout runs while the session
    is not resolved and the preview is not empty, the session resolves with
    the trimmed preview.  Until max(1200, T + 200) ms after that event,
    nothing that is not a transcription event with text, a close or an
    error changes the session: time passing, blank transcription events and
    the events of the audio input neither resolve it nor move the
    timeout. *)
Theorem idle_timer_contract (cfg : Config) (T : Z) (pre : list (Z * Event))
        (now : Z) (t : jsstring) (f sf : bool) :
  let s := run cfg pre init in
  let s1 := handle cfg now (Transcript t f sf) s in
  let D := Z.max 1200 (T + 200) in
  trailingSilenceMs cfg = Ms T -> T + 200 <= TIMEOUT_MAX ->
  opened s = true -> truthy (trim t) = true ->
  idleDelay cfg = Ms D
  /\ pending s1 = [(nextHandle s, now + D)]
  /\ idleTimer s1 = Some (nextHandle s)
  /\ (forall now',
         now + D <= now' -> settled s1 = false -> truthy (utterance s1) = true ->
         let s2 := handle cfg now' Timers s1 in
         settled s2 = true
         /\ outcome s2 = Some (Resolved (trim (utterance s1)))
         /\ pending s2 = [])
  /\ (forall later,
         Forall (fun e => silent (now + D) e = true) later ->
         run cfg later s1 = s1).
Proof.
  intros s s1 D HT Hmax Ho Ht.
  destruct (idleDelay_setting cfg T HT Hmax) as [HD Hdelay]. fold D in HD, Hdelay.
  pose proof (sessionInv_reachable cfg pre) as Hinv. fold s in Hinv.
  assert (Hinv1 : sessionInv s1) by now apply sessionInv_handle.
  assert (Hpend : pending s1 = [(nextHandle s, now + D)]
                  /\ idleTimer s1 = Some (nextHandle s)).
  { subst s1. cbn. rewrite Ho, <- Hdelay.
    apply onTranscript_pending; [apply Hinv|exact Ht]. }
  destruct Hpend as [Hp Hi]. clearbody s1.
  split_and!; try assumption.
  - intros now' Hdue Hs Hu. cbn.
    destruct Hinv1 as ([(_ & _ & Hout & _)|(Hs' & _)] & _ & Htidy & _);
      [|congruence].
    apply truthy_true in Hu.
    unfold runTimers. rewrite Hp. cbn.
    destruct (Z.leb_spec (now + D) now'); [|lia]. cbn.
    unfold idleCallback. cbn. rewrite Hs, (tidy_trim _ Htidy). cbn.
    apply truthy_true in Hu. rewrite Hu.
    unfold safeResolve. cbn. rewrite Hs. cbn. rewrite Hout. now split_and!.
  - intros later Hall. induction Hall as [|[x ev] later Hx _ IH]; [reflexivity|].
    cbn [run fold_left fst snd] in *. fold (run cfg later) in *.
    assert (Hstay : handle cfg x ev s1 = s1).
    { unfold silent in Hx. cbn [fst snd] in Hx.
      destruct ev as [|t' f' sf'| | | | | |]; try discriminate.
      - cbn. destruct (opened s1); [|reflexivity].
        unfold onTranscript. now rewrite Hx.
      - cbn. now destruct (opened s1).
      - cbn. now destruct (opened s1).
      - cbn. apply (runTimers_not_due x s1 _ _ Hp). lia. }
    rewrite Hstay. exact IH.
Qed.

Lemma idle_timer_contract_witness :
  let s := run cfgOn [(0, Open); (40, Transcript (js "open") true false)] init in
  let s1 := handle cfgOn 100 (Transcript (js " the file ") false false) s in
  idleDelay cfgOn = Ms (Z.max 1200 (1000 + 200))
  /\ pending s1 = [(nextHandle s, 100 + Z.max 1200 (1000 + 200))]
  /\ idleTimer s1 = Some (nextHandle s)
  /\ (forall now',
         100 + Z.max 1200 (1000 + 200) <= now' ->
         settled s1 = false -> truthy (utterance s1) = true ->
         let s2 := handle cfgOn now' Timers s1 in
         settled s2 = true
         /\ outcome s2 = Some (Resolved (trim (utterance s1)))
         /\ pending s2 = [])
  /\ (forall later,
         Forall (fun e => silent (100 + Z.max 1200 (1000 + 200)) e = true) later ->
         run cfgOn later s1 = s1).
Proof.
  exact (idle_timer_contract cfgOn 1000
           [(0, Open); (40, Transcript (js "open") true false)]
           100 (js " the file ") false false eq_refl
           ltac:(unfold TIMEOUT_MAX; lia) eq_refl eq_refl).
Defined.

(** C6 (what the claim says of every setting and of every last event).  With
    a setting of 3000000000 ms the delay max(1200, T + 200) is above
    2^31 - 1, the host takes it as 1 ms, and the session resolves 1 ms
    after its last event.  With the setting 1000, a blank transcription
    event at 1000 ms does not restart the timeout armed at 40 ms, and the
    session resolves 240 ms after that last event. *)
Lemma idle_timeout_before_stated_delay :
  (let s1 := run cfgLong [(0, Open); (100, Transcript (js "go") false false)] init in
   idleDelay cfgLong = Ms (Z.max 1200 (3000000000 + 200))
   /\ pending s1 = [(0%nat, 100 + 1)]
   /\ outcome s1 = None
   /\ outcome (handle cfgLong 101 Timers s1) = Some (Resolved (js "go"))
   /\ 101 < 100 + Z.max 1200 (3000000000 + 200))
  /\ (let s1 := run cfgOn [(0, Open); (40, Transcript (js "open") false false);
                           (1000, Transcript (js " ") false false)] init in
      pending s1 = [(0%nat, 40 + 1200)]
      /\ outcome s1 = None
      /\ outcome (handle cfgOn 1240 Timers s1) = Some (Resolved (js "open"))
      /\ 1240 < 1000 + Z.max 1200 (1000 + 200)).
Proof. cbv zeta. split_and!; reflexivity. Qed.

Example idle_timer_fires :
  let s1 := run cfgOn [(0, Open); (40, Transcript (js "open") true false);
                       (100, Transcript (js " the file ") false false)] init in
  settled (handle cfgOn 1299 Timers s1) = false
  /\ outcome (handle cfgOn 1300 Timers s1) = Some (Resolved (js "open the file")).
Proof. split; reflexivity. Qed.

(* ================================================================== *)
(** ** The highlight lifecycle *)
(* ================================================================== *)

(** The decoration types the armed timeouts will dispose. *)
Fixpoint owned (ts : list (Z * list nat)) : gset nat :=
  match ts with
  | [] => ∅
  | t :: r => list_to_set t.2 ∪ owned r
  end.

(** Every live decoration type is owned by an armed timeout, and the types
    owned are types already created. *)
Definition editorInv (e : Editor) : Prop :=
  dom (decorations e) ⊆ owned (timeouts e)
  /\ (forall k, k ∈ owned (timeouts e) -> (k < nextType e)%nat).

Lemma owned_app (a b : list (Z * list nat)) : owned (a ++ b) = owned a ∪ owned b.
Proof. induction a as [|t a IH]; simpl; [set_solver|]. rewrite IH. set_solver. Qed.

Lemma owned_filter (P : Z * list nat -> bool) (ts : list (Z * list nat)) :
  owned ts = owned (List.filter P ts) ∪ owned (List.filter (fun t => negb (P t)) ts).
Proof.
  induction ts as [|t ts IH]; simpl; [set_solver|].
  destruct (P t); simpl; rewrite IH; set_solver.
Qed.

Lemma release_dom (types : list nat) (d : gmap nat (list DecorationOptions)) :
  dom (release types d) = dom d ∖ list_to_set types.
Proof.
  unfold release. revert d; induction types as [|t types IH]; intros d; simpl.
  - set_solver.
  - rewrite IH, dom_delete_L. set_solver.
Qed.

Lemma releases_dom (due : list (Z * list nat)) (d : gmap nat (list DecorationOptions)) :
  dom (fold_left (fun d t => release t.2 d) due d) = dom d ∖ owned due.
Proof.
  revert d; induction due as [|t due IH]; intros d; simpl.
  - set_solver.
  - rewrite IH, release_dom. set_solver.
Qed.

Lemma lineCount_pos (txt : jsstring) : (lineCount txt =? 0) = false.
Proof. unfold lineCount. pose proof (hostLines_nonempty txt). lia. Qed.

Lemma replace_dom now newText e :
  dom (decorations (replaceDocumentWithHighlight now newText e))
  = dom (decorations e) ∪ {[nextType e; (nextType e + 1)%nat; (nextType e + 2)%nat]}.
Proof.
  unfold replaceDocumentWithHighlight. rewrite lineCount_pos. cbn.
  rewrite !dom_insert_L. set_solver.
Qed.

Lemma replace_timeouts now newText e :
  timeouts (replaceDocumentWithHighlight now newText e)
  = timeouts e ++ [(now + DISPOSE_MS,
                    [nextType e; (nextType e + 1)%nat; (nextType e + 2)%nat])].
Proof. unfold replaceDocumentWithHighlight. now rewrite lineCount_pos. Qed.

Lemma editorInv_fresh txt : editorInv (fresh txt).
Proof. split; cbn; set_solver. Qed.

Lemma editorInv_step now op e : editorInv e -> editorInv (step now op e).
Proof.
  intros [Hd Hk]. destruct op as [newText|]; cbn [step].
  - split.
    + rewrite replace_dom, replace_timeouts, owned_app. cbn. set_solver.
    + intros k. rewrite replace_timeouts, owned_app. cbn.
      unfold replaceDocumentWithHighlight. rewrite lineCount_pos. cbn.
      rewrite elem_of_union. intros [Hin|Hin]; [apply Hk in Hin; lia|].
      set_unfold in Hin. lia.
  - unfold editorInv, runTimeouts; cbn [decorations timeouts nextType]. split.
    + rewrite releases_dom.
      rewrite (owned_filter (fun t => t.1 <=? now) (timeouts e)) in Hd.
      set_solver.
    + intros k Hin. apply Hk.
      rewrite (owned_filter (fun t => t.1 <=? now) (timeouts e)). set_solver.
Qed.

Lemma editorInv_runOps ops e : editorInv e -> editorInv (runOps ops e).
Proof.
  revert e; induction ops as [|o ops IH]; intros e H; simpl; [exact H|].
  now apply IH, editorInv_step.
Qed.

(** C8 (as stated, refuted).  The first call highlights the added line 1;
    the second call, 1000 ms later, acquires three more decoration types and
    leaves those of the first call live, with the range set on them: they
    are released when the first timeout runs, at 3500. *)
Lemma second_apply_keeps_first_decorations :
  let e1 := replaceDocumentWithHighlight 0 (js "a\nb\nc") (fresh (js "a\nc")) in
  let e2 := replaceDocumentWithHighlight 1000 (js "x\na\nb\nc") e1 in
  decorations e1 !! 0%nat
    = Some [{| range := {| rstart := {| line := 1; character := 0 |};
                           rend := {| line := 1; character := 1 |} |};
               label := NoLabel |}]
  /\ decorations e2 !! 0%nat = decorations e1 !! 0%nat
  /\ decorations e2 !! 1%nat = Some []
  /\ decorations e2 !! 2%nat = Some []
  /\ size (decorations e2) = 6%nat
  /\ timeouts e2 = [(3500, [0; 1; 2]%nat); (4500, [3; 4; 5]%nat)]
  /\ size (decorations (runTimeouts 3499 e2)) = 6%nat
  /\ size (decorations (runTimeouts 3500 e2)) = 3%nat.
Proof. cbv zeta. split_and!; vm_compute; reflexivity. Qed.

Lemma owned_filter_subseteq (P : Z * list nat -> bool) (ts : list (Z * list nat)) :
  owned (List.filter P ts) ⊆ owned ts.
Proof. rewrite (owned_filter P ts). set_solver. Qed.

Lemma filter_all_due (later : Z) (ts : list (Z * list nat)) :
  Forall (fun t => t.1 <= later) ts ->
  List.filter (fun t => t.1 <=? later) ts = ts.
Proof.
  induction 1 as [|t ts Ht _ IH]; simpl; [reflexivity|].
  destruct (Z.leb_spec t.1 later); [now rewrite IH|lia].
Qed.

(** The types [mine] of a call whose timeout is due at [deadline] are
    live, and no timeout due earlier disposes them. *)
Definition keeps (mine : gset nat) (deadline : Z) (x : Editor) : Prop :=
  mine ⊆ dom (decorations x)
  /\ (forall k, k ∈ mine -> (k < nextType x)%nat)
  /\ Forall (fun t => t.1 < deadline -> list_to_set t.2 ## mine) (timeouts x).

Lemma owned_elem (ts : list (Z * list nat)) (t : Z * list nat) :
  In t ts -> list_to_set t.2 ⊆ owned ts.
Proof.
  induction ts as [|u ts IH]; simpl; [tauto|].
  intros [->|Hin]; [set_solver|]. apply IH in Hin. set_solver.
Qed.

Lemma owned_disjoint (mine : gset nat) (ts : list (Z * list nat)) :
  Forall (fun t => list_to_set t.2 ## mine) ts -> owned ts ## mine.
Proof. induction 1 as [|t ts Ht _ IH]; simpl; set_solver. Qed.

Lemma keeps_step mine deadline now op x :
  now < deadline -> keeps mine deadline x -> keeps mine deadline (step now op x).
Proof.
  intros Hlt (Hlive & Hnext & Hts). destruct op as [newText|]; cbn [step].
  - split_and!.
    + rewrite replace_dom. set_solver.
    + intros k Hk. apply Hnext in Hk.
      unfold replaceDocumentWithHighlight. rewrite lineCount_pos. cbn. lia.
    + rewrite replace_timeouts. apply Forall_app. split; [exact Hts|].
      repeat constructor. cbn. intros _ k Hk Hm. apply Hnext in Hm.
      set_unfold in Hk. lia.
  - unfold keeps, runTimeouts. cbn [decorations nextType timeouts].
    split_and!; [|exact Hnext|].
    + rewrite releases_dom.
      assert (Hdue : owned (List.filter (fun t => t.1 <=? now) (timeouts x)) ## mine).
      { apply owned_disjoint. apply List.Forall_forall. intros t Ht.
        apply List.filter_In in Ht as [Hin Hle]. apply Z.leb_le in Hle.
        rewrite List.Forall_forall in Hts. apply (Hts t Hin). lia. }
      set_solver.
    + apply List.Forall_forall. intros t Ht.
      apply List.filter_In in Ht as [Hin _].
      rewrite List.Forall_forall in Hts. now apply Hts.
Qed.

Lemma keeps_runOps mine deadline ops x :
  Forall (fun o => o.1 < deadline) ops ->
  keeps mine deadline x -> keeps mine deadline (runOps ops x).
Proof.
  intros Hops. revert x. induction Hops as [|o ops Ho _ IH]; intros x H; simpl;
    [exact H|].
  now apply IH, keeps_step.
Qed.

(** C8 (amended).  The three decoration types a call acquires are fresh and
    are released by the timeout the call arms, when it runs 3500 ms after
    the call or later, and by nothing else: the call leaves the types of
    earlier calls live as they are; whatever calls are made and timeouts run
    before its own timeout is due, its types stay live; they are disposed
    once its timeout has run; and when all the armed timeouts have run no
    decoration is left. *)
Theorem decorations_released_by_own_timeout
        (ops : list (Z * Op)) (txt newText : jsstring) (now : Z) :
  let e := runOps ops (fresh txt) in
  let e' := replaceDocumentWithHighlight now newText e in
  let mine : gset nat :=
    {[nextType e; (nextType e + 1)%nat; (nextType e + 2)%nat]} in
  dom (decorations e') = dom (decorations e) ∪ mine
  /\ mine ## dom (decorations e)
  /\ (forall k, k ∈ dom (decorations e) -> decorations e' !! k = decorations e !! k)
  /\ (forall ops',
        Forall (fun o => o.1 < now + 3500) ops' ->
        mine ⊆ dom (decorations (runOps ops' e')))
  /\ (forall later, now + 3500 <= later ->
        mine ## dom (decorations (runTimeouts later e')))
  /\ (forall ops' later,
        Forall (fun t => t.1 <= later) (timeouts (runOps ops' e')) ->
        decorations (runTimeouts later (runOps ops' e')) = ∅).
Proof.
  intros e e' mine.
  assert (Hinv : editorInv e) by apply editorInv_runOps, editorInv_fresh.
  assert (Hinv' : editorInv e') by apply (editorInv_step now (Apply newText) e Hinv).
  pose proof (replace_dom now newText e) as Hdom. fold e' mine in Hdom.
  pose proof (replace_timeouts now newText e) as Hto. fold e' in Hto.
  destruct Hinv as [Hd Hk].
  assert (Hold : forall k, k ∈ dom (decorations e) -> (k < nextType e)%nat).
  { intros k Hin. apply Hk, Hd, Hin. }
  assert (Hmine : forall k, k ∈ mine -> (nextType e <= k < nextType e + 3)%nat).
  { intros k Hin. subst mine. set_unfold in Hin. lia. }
  assert (Hnext : nextType e' = (nextType e + 3)%nat).
  { subst e'. unfold replaceDocumentWithHighlight. now rewrite lineCount_pos. }
  split_and!.
  - exact Hdom.
  - intros k Hm Ho. apply Hmine in Hm. apply Hold in Ho. lia.
  - intros k Hin. apply Hold in Hin.
    subst e'. unfold replaceDocumentWithHighlight. rewrite lineCount_pos. cbn.
    rewrite !lookup_insert_ne by lia. reflexivity.
  - intros ops' Hops.
    apply (keeps_runOps mine (now + 3500) ops' e' Hops).
    split_and!.
    + rewrite Hdom. set_solver.
    + intros k Hm. apply Hmine in Hm. lia.
    + rewrite Hto. apply Forall_app. split.
      * apply List.Forall_forall. intros t Hin _ k Hkt Hm.
        apply (owned_elem _ _ Hin), Hk in Hkt. apply Hmine in Hm. lia.
      * repeat constructor. cbn. unfold DISPOSE_MS. lia.
  - intros later Hge. unfold runTimeouts. cbn [decorations].
    rewrite releases_dom, Hto, List.filter_app, owned_app. cbn.
    unfold DISPOSE_MS. destruct (Z.leb_spec (now + 3500) later); [|lia].
    cbn. fold mine. set_solver.
  - intros ops' later Hall.
    destruct (editorInv_runOps ops' e' Hinv') as [Hd' _].
    apply dom_empty_iff_L. unfold runTimeouts. cbn [decorations].
    rewrite releases_dom, (filter_all_due later _ Hall). set_solver.
Qed.

(* ================================================================== *)
(** ** More on overlap stitching *)
(* ================================================================== *)

Lemma overlap_full (base next : jsstring) (i : nat) :
  endsWith base (take i next) = true -> overlap base next i = i.
Proof. destruct i; simpl; [reflexivity|]. now intros ->. Qed.

Lemma appendWithOverlap_drop (base next : jsstring) :
  exists k,
    take k next `suffix_of` base
    /\ appendWithOverlap base next = base ++ drop k next.
Proof.
  unfold appendWithOverlap. destruct base as [|b base].
  - exists 0%nat. split; [apply suffix_nil|reflexivity].
  - cbn [truthy negb].
    destruct (overlap_greatest (b :: base) next
                (Nat.min (length (b :: base)) (length next))) as (_ & Hs & _).
    eauto.
Qed.

(** Stitching a text the committed text already ends with adds nothing. *)
Lemma appendWithOverlap_absorbs (base next : jsstring) :
  next `suffix_of` base -> appendWithOverlap base next = base.
Proof.
  intros Hs. unfold appendWithOverlap. destruct base as [|b base].
  - apply suffix_nil_inv in Hs. now subst.
  - cbn [truthy negb].
    assert (Hlen : (length next <= length (b :: base))%nat)
      by now apply suffix_length.
    rewrite Nat.min_r by exact Hlen.
    rewrite overlap_full.
    + now rewrite drop_all, app_nil_r.
    + rewrite firstn_all. now apply endsWith_suffix.
Qed.

(** X1.  The stitched text starts with the committed text and ends with
    the new text, and is no longer than the two together: stitching never
    drops or alters a code unit of either. *)
Theorem stitch_keeps_both (base next : jsstring) :
  base `prefix_of` appendWithOverlap base next
  /\ next `suffix_of` appendWithOverlap base next
  /\ (length (appendWithOverlap base next) <= length base + length next)%nat.
Proof.
  destruct (appendWithOverlap_drop base next) as (k & [pre Hpre] & ->).
  split_and!.
  - now exists (drop k next).
  - exists pre. rewrite Hpre at 1. rewrite <- app_assoc, take_drop. reflexivity.
  - rewrite length_app, length_drop. lia.
Qed.

(** X2.  Stitching is idempotent: stitching the same text a second time
    changes nothing, so a final segment the provider sends twice is
    committed once. *)
Theorem stitch_idempotent (base next : jsstring) :
  appendWithOverlap (appendWithOverlap base next) next
  = appendWithOverlap base next
  /\ (forall cfg now now' sf sf' s,
         opened s = true ->
         committed (handle cfg now' (Transcript next true sf')
                      (handle cfg now (Transcript next true sf) s))
         = committed (handle cfg now (Transcript next true sf) s)).
Proof.
  assert (Hidem : forall b n,
             appendWithOverlap (appendWithOverlap b n) n = appendWithOverlap b n).
  { intros b n. apply appendWithOverlap_absorbs.
    destruct (appendWithOverlap_drop b n) as (k & [pre Hpre] & ->).
    exists pre. rewrite Hpre at 1. rewrite <- app_assoc, take_drop. reflexivity. }
  split; [apply Hidem|].
  intros cfg now now' sf sf' s Ho.
  assert (Hcommit : forall c t,
             (if truthy c then appendWithOverlap c t else t) = appendWithOverlap c t).
  { intros c t. unfold appendWithOverlap. now destruct c. }
  assert (Hstep : forall n0 f0 s0,
             opened s0 = true ->
             opened (handle cfg n0 (Transcript next true f0) s0) = true
             /\ committed (handle cfg n0 (Transcript next true f0) s0)
                = if truthy (trim next)
                  then appendWithOverlap (committed s0) (trim next)
                  else committed s0).
  { intros n0 f0 s0 Ho0. cbn [handle]. rewrite Ho0. unfold onTranscript.
    destruct (truthy (trim next)); cbn [negb]; [|now split].
    rewrite Hcommit.
    destruct f0; [|destruct (hasOnInterim cfg)];
      unfold safeResolve; cbn; try destruct (settled s0); cbn; now split. }
  destruct (Hstep now sf s Ho) as [Ho1 Hc1].
  destruct (Hstep now' sf' _ Ho1) as [_ Hc2].
  rewrite Hc2, Hc1. destruct (truthy (trim next)); [apply Hidem|reflexivity].
Qed.

(* ================================================================== *)
(** ** More on the listening session *)
(* ================================================================== *)

(** The preview a transcription event with text [txt] leaves. *)
Definition previewAfter (isFinal : bool) (committed txt : jsstring) : jsstring :=
  if isFinal then appendWithOverlap committed txt
  else if truthy committed then committed ++ SP :: txt else txt.

Lemma stitch_or_first (c t : jsstring) :
  (if truthy c then appendWithOverlap c t else t) = appendWithOverlap c t.
Proof. unfold appendWithOverlap. now destruct c. Qed.

Lemma onTranscript_buffers cfg now t f sf s :
  truthy (trim t) = true ->
  let s' := onTranscript cfg now t f sf s in
  utterance s' = previewAfter f (committed s) (trim t)
  /\ committed s' = (if f then appendWithOverlap (committed s) (trim t)
                     else committed s)
  /\ lastTxt s' = (if f then [] else trim t)
  /\ opened s' = opened s.
Proof.
  intros Ht. cbv zeta.
  unfold onTranscript, previewAfter, safeResolve. rewrite Ht. cbn [negb].
  destruct s; cbn.
  destruct f, sf, (hasOnInterim cfg), settled0; cbn;
    rewrite ?stitch_or_first; now split_and!.
Qed.

Lemma onTranscript_speech_final cfg now t f s :
  truthy (trim t) = true -> settled s = false ->
  let s' := onTranscript cfg now t f true s in
  settled s' = true
  /\ outcome s' = settle (outcome s)
                         (Resolved (trim (previewAfter f (committed s) (trim t))))
  /\ settlements s' = (settlements s + 1)%nat
  /\ interims s' = interims s.
Proof.
  intros Ht Hs. cbv zeta.
  unfold onTranscript, previewAfter, safeResolve. rewrite Ht. cbn [negb].
  destruct s; cbn in *. subst settled0.
  destruct f; cbn; rewrite ?stitch_or_first; now split_and!.
Qed.

Lemma previewAfter_tidy (f : bool) (c x : jsstring) :
  tidy c -> tidy x -> x <> [] -> tidy (previewAfter f c x).
Proof.
  intros Hc Hx Hne. unfold previewAfter. destruct f.
  - now apply tidy_appendWithOverlap.
  - destruct (truthy c) eqn:Ht; [|exact Hx].
    apply truthy_true in Ht. now apply tidy_join.
Qed.

(** X3.  A speech-final event with text resolves an unresolved session
    within its own handling, with the preview that event leaves (the
    committed text stitched with a final text, or followed by a space and an
    interim text), which is already trimmed; [onInterim] is not called for
    it. *)
Theorem speech_final_resolves_at_once
        (cfg : Config) (pre : list (Z * Event)) (now : Z) (t : jsstring) (f : bool) :
  let s := run cfg pre init in
  let s' := handle cfg now (Transcript t f true) s in
  opened s = true -> settled s = false -> truthy (trim t) = true ->
  settled s' = true
  /\ outcome s' = Some (Resolved (previewAfter f (committed s) (trim t)))
  /\ trim (previewAfter f (committed s) (trim t))
     = previewAfter f (committed s) (trim t)
  /\ settlements s' = 1%nat
  /\ interims s' = interims s.
Proof.
  intros s s' Ho Hs Ht.
  pose proof (sessionInv_reachable cfg pre) as Hinv. fold s in Hinv.
  destruct Hinv as ([(_ & Hn & Hout & _)|(Hs' & _)] & _ & _ & Hc); [|congruence].
  assert (Htr : trim (previewAfter f (committed s) (trim t))
                = previewAfter f (committed s) (trim t)).
  { apply tidy_trim, previewAfter_tidy;
      [exact Hc|apply trim_tidy|now apply truthy_true]. }
  subst s'. cbn [handle]. rewrite Ho.
  destruct (onTranscript_speech_final cfg now t f s Ht Hs) as (H1 & H2 & H3 & H4).
  rewrite H1, H2, H3, H4, Hout, Hn, Htr. now split_and!.
Qed.

Lemma speech_final_resolves_at_once_witness :
  let s := run cfgOn [(0, Open); (40, Transcript (js "open the") true false)] init in
  let s' := handle cfgOn 90 (Transcript (js " the file ") true true) s in
  settled s' = true
  /\ outcome s' = Some (Resolved (previewAfter true (committed s) (trim (js " the file "))))
  /\ trim (previewAfter true (committed s) (trim (js " the file ")))
     = previewAfter true (committed s) (trim (js " the file "))
  /\ settlements s' = 1%nat
  /\ interims s' = interims s.
Proof.
  exact (speech_final_resolves_at_once cfgOn
           [(0, Open); (40, Transcript (js "open the") true false)]
           90 (js " the file ") true eq_refl eq_refl eq_refl).
Defined.

Example speech_final_stitched :
  outcome (run cfgOn [(0, Open); (40, Transcript (js "open the") true false);
                      (90, Transcript (js " the file ") true true)] init)
  = Some (Resolved (js "open the file")).
Proof. reflexivity. Qed.

(** X4.  A transport error, or an error of the audio input once the
    connection is open, fails an unresolved session: the promise is rejected,
    by the one call that settles it, the connection is closed, and the
    preview and the committed text are not returned.  The end of the audio
    input and its chunks do not settle anything. *)
Theorem error_rejects_unresolved_session
        (cfg : Config) (pre : list (Z * Event)) (now : Z) :
  let s := run cfg pre init in
  settled s = false ->
  (forall ev, ev = Error \/ (ev = InputError /\ opened s = true) ->
     let s' := handle cfg now ev s in
     settled s' = true /\ outcome s' = Some Rejected
     /\ settlements s' = 1%nat /\ closeCalls s' = (closeCalls s + 1)%nat)
  /\ handle cfg now InputEnd s = s
  /\ handle cfg now InputData s = s.
Proof.
  intros s Hs.
  pose proof (sessionInv_reachable cfg pre) as Hinv. fold s in Hinv.
  clearbody s.
  destruct Hinv as ([(_ & Hn & Hout & _)|(Hs' & _)] & _); [|congruence].
  split_and!.
  - intros ev Hev s'.
    assert (Hrej : s' = safeReject s).
    { subst s'. destruct Hev as [->|[-> Ho]]; cbn; [reflexivity|now rewrite Ho]. }
    rewrite Hrej. unfold safeReject. rewrite Hs. cbn. rewrite Hout, Hn.
    now split_and!.
  - cbn. now destruct (opened s).
  - cbn. now destruct (opened s).
Qed.

Lemma error_rejects_unresolved_session_witness :
  let s := run cfgOn [(0, Open); (40, Transcript (js "open the") true false)] init in
  (forall ev, ev = Error \/ (ev = InputError /\ opened s = true) ->
     let s' := handle cfgOn 50 ev s in
     settled s' = true /\ outcome s' = Some Rejected
     /\ settlements s' = 1%nat /\ closeCalls s' = (closeCalls s + 1)%nat)
  /\ handle cfgOn 50 InputEnd s = s
  /\ handle cfgOn 50 InputData s = s.
Proof.
  exact (error_rejects_unresolved_session cfgOn
           [(0, Open); (40, Transcript (js "open the") true false)] 50 eq_refl).
Defined.

(** X5.  An interim event replaces the preview, it does not extend it:
    whatever interim event came before, the preview after an interim event
    with text is the committed text, a space, and that text (the text alone
    when nothing is committed); the committed text is not touched, and
    [onInterim], when given, is called with exactly that preview. *)
Theorem interim_replaces_preview
        (cfg : Config) (now now' : Z) (t1 t2 : jsstring) (s : Session) :
  let a := handle cfg now (Transcript t1 false false) s in
  let b := handle cfg now' (Transcript t2 false false) a in
  opened s = true -> truthy (trim t2) = true ->
  utterance b = (if truthy (committed s)
                 then committed s ++ SP :: trim t2 else trim t2)
  /\ committed b = committed s
  /\ interims b = (if hasOnInterim cfg
                   then interims a ++ [utterance b] else interims a)
  /\ settled b = settled s.
Proof.
  intros a b Ho Ht2.
  assert (Ha : opened a = true /\ committed a = committed s
               /\ settled a = settled s).
  { subst a. cbn [handle]. rewrite Ho. unfold onTranscript.
    destruct (truthy (trim t1)); cbn [negb]; [|now split_and!].
    destruct (hasOnInterim cfg); destruct s; cbn; now split_and!. }
  destruct Ha as (Hoa & Hca & Hsa). clearbody a.
  subst b. cbn [handle]. rewrite Hoa. unfold onTranscript. rewrite Ht2.
  cbn [negb]. rewrite <- Hca, <- Hsa.
  destruct (hasOnInterim cfg); destruct a; cbn; now split_and!.
Qed.

Lemma interim_replaces_preview_witness :
  let s := run cfgOn [(0, Open); (40, Transcript (js "open") true false)] init in
  let a := handle cfgOn 60 (Transcript (js "the fire") false false) s in
  let b := handle cfgOn 80 (Transcript (js "the file") false false) a in
  utterance b = (if truthy (committed s)
                 then committed s ++ SP :: trim (js "the file")
                 else trim (js "the file"))
  /\ committed b = committed s
  /\ interims b = (if hasOnInterim cfgOn
                   then interims a ++ [utterance b] else interims a)
  /\ settled b = settled s.
Proof.
  exact (interim_replaces_preview cfgOn 60 80 (js "the fire") (js "the file")
           (run cfgOn [(0, Open); (40, Transcript (js "open") true false)] init)
           eq_refl eq_refl).
Defined.

(** X6.  Whatever events came before, a close that reaches an open,
    unresolved session resolves it with the empty string: the text
    committed so far and the preview are left in the session and are not
    returned. *)
Theorem close_returns_empty_string
        (cfg : Config) (pre : list (Z * Event)) (now : Z) :
  let s := run cfg pre init in
  let s' := handle cfg now Close s in
  opened s = true -> settled s = false ->
  settled s' = true
  /\ outcome s' = Some (Resolved [])
  /\ committed s' = committed s
  /\ utterance s' = utterance s.
Proof.
  intros s s' Ho Hs.
  pose proof (sessionInv_reachable cfg pre) as Hinv. fold s in Hinv.
  clearbody s.
  destruct Hinv as ([(_ & _ & Hout & Hft)|(Hf & _)] & _); [|congruence].
  subst s'. cbn [handle]. rewrite Ho. unfold onClose, safeResolve.
  rewrite Hs. cbn. rewrite Hft, Hout. cbn. now split_and!.
Qed.

Lemma close_returns_empty_string_witness :
  let s := run cfgOn [(0, Open); (40, Transcript (js "open the file") true false);
                      (60, Transcript (js "please") false false)] init in
  let s' := handle cfgOn 100 Close s in
  settled s' = true
  /\ outcome s' = Some (Resolved [])
  /\ committed s' = committed s
  /\ utterance s' = utterance s.
Proof.
  exact (close_returns_empty_string cfgOn
           [(0, Open); (40, Transcript (js "open the file") true false);
            (60, Transcript (js "please") false false)] 100 eq_refl eq_refl).
Defined.

(* ================================================================== *)
(** ** The timing options of the live connection *)
(* ================================================================== *)

(** [liveOpts.endpointing]: the silence after which the provider ends an
    utterance. *)
Definition endpointing (cfg : Config) : Num := trailingMsCfg cfg.

(** [liveOpts.utterance_end_ms] *)
Definition utterance_end_ms (cfg : Config) : Num :=
  mathMax 1500 (plus (trailingMsCfg cfg) 500).

(** X7.  For a setting that is a whole number T of milliseconds with
    T + 500 below 2^53, the three silence thresholds are whole numbers and
    are ordered: the provider's endpointing is at least 100 ms and at least
    T, the delay of the idle timeout comes at least 200 ms after it and is
    at least 1200 ms, and the provider's utterance-end guard is exactly
    300 ms after that delay.  The host waits for the delay when it is at
    most 2^31 - 1 ms, and for 1 ms when it is more. *)
Theorem silence_thresholds_ordered (cfg : Config) (T : Z) :
  trailingSilenceMs cfg = Ms T -> T + 500 < EXACT ->
  exists e d u,
    endpointing cfg = Ms e /\ idleDelay cfg = Ms d /\ utterance_end_ms cfg = Ms u
    /\ 100 <= e /\ T <= e
    /\ e + 200 <= d /\ 1200 <= d
    /\ u = d + 300
    /\ timeoutDelay (idleDelay cfg) = (if d <=? TIMEOUT_MAX then d else 1).
Proof.
  intros HT Hex.
  exists (Z.max 100 T), (Z.max 1200 (Z.max 100 T + 200)),
         (Z.max 1500 (Z.max 100 T + 500)).
  unfold endpointing, utterance_end_ms, idleDelay, trailingMsCfg, EXACT in *.
  rewrite HT. unfold mathMax, plus, num, EXACT.
  destruct (Z.ltb_spec (Z.max 100 T) 9007199254740992); [|lia].
  destruct (Z.ltb_spec (Z.max 100 T + 200) 9007199254740992); [|lia].
  destruct (Z.ltb_spec (Z.max 100 T + 500) 9007199254740992); [|lia].
  destruct (Z.ltb_spec (Z.max 1200 (Z.max 100 T + 200)) 9007199254740992); [|lia].
  destruct (Z.ltb_spec (Z.max 1500 (Z.max 100 T + 500)) 9007199254740992); [|lia].
  split_and!; try reflexivity; try lia.
  cbn [timeoutDelay].
  destruct (Z.leb_spec 1 (Z.max 1200 (Z.max 100 T + 200))); [|lia].
  reflexivity.
Qed.

Lemma silence_thresholds_ordered_witness :
  exists e d u,
    endpointing cfgOn = Ms e /\ idleDelay cfgOn = Ms d /\ utterance_end_ms cfgOn = Ms u
    /\ 100 <= e /\ 1000 <= e
    /\ e + 200 <= d /\ 1200 <= d
    /\ u = d + 300
    /\ timeoutDelay (idleDelay cfgOn) = (if d <=? TIMEOUT_MAX then d else 1).
Proof.
  apply (silence_thresholds_ordered cfgOn 1000); [reflexivity|].
  unfold EXACT. lia.
Defined.

(** A setting that is not numeric, or of 2^53 and more, leaves no
    threshold: the options sent are not numbers, or beyond any silence, and
    the idle timeout runs after 1 ms. *)
Lemma thresholds_out_of_range (cfg : Config) :
  trailingSilenceMs cfg = NaN \/ trailingSilenceMs cfg = Large ->
  endpointing cfg = trailingSilenceMs cfg
  /\ utterance_end_ms cfg = trailingSilenceMs cfg
  /\ idleDelay cfg = trailingSilenceMs cfg
  /\ timeoutDelay (idleDelay cfg) = 1.
Proof.
  unfold endpointing, utterance_end_ms, idleDelay, trailingMsCfg.
  intros [-> | ->]; now split_and!.
Qed.

(* ================================================================== *)
(** ** [withTimeout]: a promise raced against a timer *)
(* ================================================================== *)

Module Timeout.

Section Race.
Variable V : Type.

(** The closure of [withTimeout(p, ms)] with the part of the host it acts
    on: the armed timeout and the calls of [resolve], whose argument is a
    value or [null] (here [None]). *)
Record Race := {
  settled : bool;
  timer : option Z;                 (* due time while armed *)
  resolved : list (option V)        (* arguments of the [resolve] calls *)
}.


(** The callback of the timeout. *)
Definition onTimer (r : Race) : Race :=
  if settled r then {| settled := true; timer := None; resolved := resolved r |}
  else {| settled := true; timer := None; resolved := resolved r ++ [None] |}.

(** The two callbacks given to [then]: [clearTimeout] disarms the timer. *)
Definition onFulfilled (v : V) (r : Race) : Race :=
  if settled r then r
  else {| settled := true; timer := None; resolved := resolved r ++ [Some v] |}.

Definition onRejected (r : Race) : Race :=
  if settled r then r
  else {| settled := true; timer := None; resolved := resolved r ++ [None] |}.

Inductive Event :=
| Fulfilled (v : V)
| Rejected
| Timers.                           (* the host's timer phase *)

Definition step (now : Z) (ev : Event) (r : Race) : Race :=
  match ev with
  | Fulfilled v => onFulfilled v r
  | Rejected => onRejected r
  | Timers =>
      match timer r with
      | Some due => if due <=? now then onTimer r else r
      | None => r
      end
  end.

Definition run (evs : list (Z * Event)) (r : Race) : Race :=
  fold_left (fun r e => step e.1 e.2 r) evs r.

End Race.

End Timeout.

Arguments Timeout.settled {V} _.
Arguments Timeout.timer {V} _.
Arguments Timeout.resolved {V} _.
Arguments Timeout.Fulfilled {V} _.
Arguments Timeout.Rejected {V}.
Arguments Timeout.Timers {V}.
Arguments Timeout.step {V} _ _ _.
Arguments Timeout.run {V} _ _.







(* ================================================================== *)
(** ** More on the diff engine: the removed entries *)
(* ================================================================== *)

(** The lines the removed entries count, together. *)
Definition removedTotal (l : list Removed) : Z :=
  fold_right (fun r acc => count r + acc) 0 l.

Definition anchorsIncreasing (l : list Removed) : Prop :=
  StronglySorted (fun a b => anchor a < anchor b) l.

Lemma removedTotal_snoc (l : list Removed) (r : Removed) :
  removedTotal (l ++ [r]) = removedTotal l + count r.
Proof. induction l as [|a l IH]; simpl; lia. Qed.

Lemma anchorsIncreasing_snoc (l : list Removed) (x : Removed) :
  anchorsIncreasing l -> Forall (fun a => anchor a < anchor x) l ->
  anchorsIncreasing (l ++ [x]).
Proof.
  unfold anchorsIncreasing. induction 1 as [|a l Hl IH Ha]; intros Hx; simpl.
  - repeat constructor.
  - inversion Hx as [|? ? Hax Hlx]; subst. constructor; [now apply IH|].
    apply Forall_app. split; [exact Ha|]. now repeat constructor.
Qed.

Section WalkRemoved.
Variables A B : list jsstring.
Variable dp : list Z.

Definition removedInv (w : Walk) : Prop :=
  (wi w <= length A)%nat
  /\ 0 <= delCount w
  /\ removedTotal (wremoved w) + delCount w <= Z.of_nat (wi w)
  /\ anchorsIncreasing (wremoved w)
  /\ Forall (fun r => anchor r < Z.of_nat (wj w)) (wremoved w)
  /\ (delCount w = 0
      \/ Forall (fun r => anchor r + 1 < Z.of_nat (length B)) (wremoved w)).

Lemma removedInv_init : removedInv walkInit.
Proof.
  unfold removedInv, anchorsIncreasing; cbn.
  split_and!; solve [lia|constructor].
Qed.

Lemma removedInv_step (w : Walk) :
  walkGuard A B w = true -> removedInv w -> removedInv (walkStep A B dp w).
Proof.
  unfold walkGuard. rewrite andb_true_iff, !Nat.ltb_lt.
  intros [Hi Hj] (Hn & Hd & Htot & Hinc & Hanc & Hlast).
  assert (Hanc' : Forall (fun r => anchor r < Z.of_nat (wj w + 1)) (wremoved w)).
  { eapply Forall_impl; [exact Hanc|]. cbn. intros; lia. }
  assert (Hfar : Forall (fun r => anchor r + 1 < Z.of_nat (length B)) (wremoved w)).
  { eapply Forall_impl; [exact Hanc|]. cbn. intros; lia. }
  unfold walkStep, removedInv.
  destruct (sameLine A B (wi w) (wj w)); [|destruct (_ >=? _)];
    cbn [wi wj addStart delCount wadded wremoved].
  - case_bool_decide as Hdel.
    + rewrite removedTotal_snoc. cbn [count].
      split_and!; [lia|lia|lia| | |now left].
      * now apply anchorsIncreasing_snoc.
      * apply Forall_app. split; [exact Hanc'|].
        repeat constructor. cbn. lia.
    + split_and!; [lia|lia|lia|exact Hinc|exact Hanc'|now left].
  - split_and!; [lia|lia|lia|exact Hinc|exact Hanc|now right].
  - split_and!; [lia|lia|lia|exact Hinc|exact Hanc'|exact Hlast].
Qed.

Lemma removedInv_loop (fuel : nat) (w : Walk) :
  removedInv w -> removedInv (walkLoop A B fuel dp w).
Proof.
  revert w; induction fuel as [|fuel IH]; intros w H; simpl; [exact H|].
  destruct (walkGuard A B w) eqn:Hg; [|exact H].
  now apply IH, removedInv_step.
Qed.

Lemma walkFlush_removed (w : Walk) :
  removedInv w ->
  anchorsIncreasing (walkFlush B w).2
  /\ removedTotal (walkFlush B w).2 <= Z.of_nat (length A).
Proof.
  intros (Hn & Hd & Htot & Hinc & Hanc & Hlast).
  unfold walkFlush. cbn [snd].
  case_bool_decide as Hdel; [|split; [exact Hinc|lia]].
  destruct Hlast as [?|Hlast]; [lia|]. split.
  - apply anchorsIncreasing_snoc; [exact Hinc|].
    eapply Forall_impl; [exact Hlast|]. cbn. intros; lia.
  - rewrite removedTotal_snoc. cbn. lia.
Qed.
End WalkRemoved.

(** X9.  For all texts, the added spans are in increasing order, leave an
    unmarked line between two of them and lie inside the new text; every
    removed entry counts at least one line and is anchored on a line of the
    new text; the anchors increase strictly, so no two entries share a line;
    and together the entries count no more lines than the old text has. *)
Theorem hints_well_formed (oldText newText : jsstring) :
  let h := computeChangeHints oldText newText in
  let n := Z.of_nat (length (split oldText)) in
  let m := Z.of_nat (length (split newText)) in
  spansOrdered (added h)
  /\ Forall (fun a => 0 <= a.1 <= a.2 /\ a.2 < m) (added h)
  /\ Forall (fun r => 1 <= count r /\ 0 <= anchor r < m) (removed h)
  /\ anchorsIncreasing (removed h)
  /\ removedTotal (removed h) <= n.
Proof.
  intros h n m.
  destruct (hints_shape oldText newText) as (H1 & H2 & H3).
  assert (H45 : anchorsIncreasing (removed h) /\ removedTotal (removed h) <= n).
  { subst h n. unfold computeChangeHints, addedRemoved. cbn [removed].
    rewrite branchOf_general by apply split_nonempty.
    unfold lcsHints.
    apply (walkFlush_removed (split oldText)), (removedInv_loop (split oldText)),
      removedInv_init. }
  destruct H45 as [H4 H5]. now split_and!.
Qed.

(** Splitting after a line feed: the lines before it, then the lines after
    it, unless the text before ends in a carriage return, which the
    separator would take. *)
Lemma split_app_LF (s t : jsstring) :
  last s <> Some CR -> split (s ++ LF :: t) = split s ++ split t.
Proof.
  induction s as [|c r IH]; intros Hl.
  - reflexivity.
  - assert (Hr : r <> [] -> last r <> Some CR).
    { intros Hne. destruct r; [congruence|]. exact Hl. }
    cbn [app split].
    destruct r as [|d r'].
    + cbn. destruct (N.eqb_spec c CR) as [->|Hc]; [now cbn in Hl|].
      cbn. destruct (c =? LF)%N; reflexivity.
    + specialize (IH (Hr ltac:(discriminate))).
      cbn [app] in *.
      destruct ((c =? CR)%N && (d =? LF)%N)%bool; [exact IH|].
      destruct (c =? LF)%N; [now rewrite IH|].
      rewrite IH.
      pose proof (split_nonempty (d :: r')) as Hne.
      destruct (split (d :: r')); [simpl in Hne; lia|reflexivity].
Qed.

(** X10.  Lines appended after the last line of a document, and lines
    dropped from its end, are not reported at all: when one text is the
    other followed by a line feed and more text, the diff has no added span,
    no removed entry and no moved block (the text before the line feed not
    ending in a carriage return, which would make CR LF one separator). *)
Theorem appended_lines_not_reported (oldText more : jsstring) :
  last oldText <> Some CR ->
  computeChangeHints oldText (oldText ++ LF :: more)
  = {| added := []; removed := []; moved := [] |}
  /\ computeChangeHints (oldText ++ LF :: more) oldText
     = {| added := []; removed := []; moved := [] |}.
Proof.
  intros Hl. unfold computeChangeHints.
  rewrite (split_app_LF _ _ Hl).
  destruct (tail_dropped (split oldText) (split more) (split_nonempty oldText))
    as [-> ->].
  split; reflexivity.
Qed.

Lemma appended_lines_not_reported_witness :
  computeChangeHints (js "a\nb") (js "a\nb" ++ LF :: js "c\nd")
  = {| added := []; removed := []; moved := [] |}
  /\ computeChangeHints (js "a\nb" ++ LF :: js "c\nd") (js "a\nb")
     = {| added := []; removed := []; moved := [] |}.
Proof.
  apply (appended_lines_not_reported (js "a\nb") (js "c\nd")). discriminate.
Defined.

(* ================================================================== *)
(** ** More on the diff engine: the origin of a moved block *)
(* ================================================================== *)

(** The number of line feeds among the first [off] code units: the
    0-based line the offset [off] is on. *)
Definition linesBefore (text : jsstring) (off : Z) : Z :=
  Z.of_nat (length (List.filter (fun c => (c =? LF)%N) (take (Z.to_nat off) text))).

(** How many offsets are at most [off]. *)
Definition atMost (off : Z) (offs : list Z) : Z :=
  Z.of_nat (length (List.filter (fun o => o <=? off) offs)).

Lemma offsetsFrom_above (k : nat) (s : jsstring) :
  Forall (fun o => Z.of_nat k < o) (offsetsFrom k s).
Proof.
  revert k; induction s as [|c r IH]; intros k; simpl; [constructor|].
  assert (Hr : Forall (fun o => Z.of_nat k < o) (offsetsFrom (k + 1) r)).
  { eapply Forall_impl; [apply IH|]. cbn. intros; lia. }
  destruct (c =? 10)%N; [constructor; [lia|exact Hr]|exact Hr].
Qed.

Lemma offsetsFrom_sorted (k : nat) (s : jsstring) :
  StronglySorted Z.lt (offsetsFrom k s).
Proof.
  revert k; induction s as [|c r IH]; intros k; simpl; [constructor|].
  destruct (c =? 10)%N; [|apply IH].
  constructor; [apply IH|].
  eapply Forall_impl; [apply offsetsFrom_above|]. cbn. intros; lia.
Qed.

Lemma offsetsFrom_length (k : nat) (s : jsstring) :
  (length (offsetsFrom k s) <= length s)%nat.
Proof.
  revert k; induction s as [|c r IH]; intros k; simpl; [lia|].
  specialize (IH (k + 1)%nat). destruct (c =? 10)%N; simpl; lia.
Qed.

Lemma offsetsFrom_atMost (s : jsstring) (k : nat) (off : Z) :
  atMost off (offsetsFrom k s) = linesBefore s (off - Z.of_nat k).
Proof.
  unfold atMost, linesBefore.
  revert k; induction s as [|c r IH]; intros k.
  - now rewrite take_nil.
  - cbn [offsetsFrom].
    destruct (Z.leb_spec (Z.of_nat (k + 1)) off) as [Hle|Hgt].
    + replace (Z.to_nat (off - Z.of_nat k))
        with (S (Z.to_nat (off - Z.of_nat (k + 1)))) by lia.
      cbn [take List.filter]. unfold LF.
      destruct (c =? 10)%N; cbn [List.filter length].
      * destruct (Z.leb_spec (Z.of_nat (k + 1)) off); [|lia].
        cbn [length]. rewrite !Nat2Z.inj_succ. f_equal. apply IH.
      * apply IH.
    + replace (Z.to_nat (off - Z.of_nat k)) with 0%nat by lia.
      cbn [take List.filter length].
      specialize (IH (k + 1)%nat).
      replace (Z.to_nat (off - Z.of_nat (k + 1))) with 0%nat in IH by lia.
      cbn [take List.filter length] in IH.
      destruct (c =? 10)%N; cbn [List.filter length]; [|exact IH].
      destruct (Z.leb_spec (Z.of_nat (k + 1)) off); [lia|exact IH].
Qed.

Lemma rd_cons (x : Z) (l : list Z) (i : nat) : rd (x :: l) (S i) = rd l i.
Proof. reflexivity. Qed.

Lemma filter_above_nil (x off : Z) (l : list Z) :
  off < x -> Forall (Z.lt x) l -> List.filter (fun o => o <=? off) l = [].
Proof.
  intros Hx. induction 1 as [|y l Hy _ IH]; [reflexivity|].
  cbn. destruct (Z.leb_spec y off); [lia|exact IH].
Qed.

(** In a sorted list the offsets at most [off] are the first ones. *)
Lemma sorted_atMost (off : Z) (offs : list Z) (i : nat) :
  StronglySorted Z.lt offs -> (i < length offs)%nat ->
  (rd offs i <= off <-> Z.of_nat i < atMost off offs).
Proof.
  unfold atMost. intros Hs. revert i.
  induction Hs as [|x l Hl IH Hx]; intros i Hi; [simpl in Hi; lia|].
  cbn [List.filter]. destruct (Z.leb_spec x off) as [Hle|Hgt].
  - cbn [length]. destruct i as [|i].
    + unfold rd. cbn. lia.
    + rewrite rd_cons. simpl in Hi. rewrite IH by lia. lia.
  - rewrite (filter_above_nil x off l Hgt Hx). cbn [length].
    destruct i as [|i].
    + unfold rd. cbn. lia.
    + rewrite rd_cons. simpl in Hi.
      assert (Hin : (i < length l)%nat) by lia.
      apply lookup_lt_is_Some_2 in Hin as [y Hy].
      unfold rd. rewrite Hy. cbn.
      rewrite Forall_forall in Hx.
      assert (x < y) by (apply Hx; eapply list_elem_of_lookup_2; exact Hy).
      lia.
Qed.

(** The binary search returns the index of the last offset at most [off]. *)
Lemma searchLoop_last (offs : list Z) (off : Z) :
  StronglySorted Z.lt offs -> Z.of_nat (length offs) < 2147483648 ->
  1 <= atMost off offs ->
  forall fuel lo hi ans,
    0 <= lo <= atMost off offs ->
    atMost off offs <= hi + 1 <= Z.of_nat (length offs) ->
    (0 < lo -> ans = lo - 1) ->
    hi - lo + 1 <= Z.of_nat fuel ->
    searchLoop fuel offs off lo hi ans = atMost off offs - 1.
Proof.
  intros Hs Hlen Hc.
  induction fuel as [|fuel IH]; intros lo hi ans Hlo Hhi Hans Hf.
  - simpl. lia.
  - simpl. destruct (Z.leb_spec lo hi) as [Hle|Hgt]; [|lia].
    rewrite ushr1_half by lia.
    assert (Hmid : lo <= (lo + hi) / 2 <= hi).
    { split; [apply Z.div_le_lower_bound|apply Z.div_le_upper_bound]; lia. }
    set (mid := (lo + hi) / 2) in *.
    pose proof (sorted_atMost off offs (Z.to_nat mid) Hs ltac:(lia)) as Hiff.
    rewrite Z2Nat.id in Hiff by lia.
    destruct (Z.leb_spec (rd offs (Z.to_nat mid)) off) as [Hm|Hm].
    + apply IH; lia.
    + apply IH; lia.
Qed.

Lemma oldOffsets_atMost (text : jsstring) (off : Z) :
  0 <= off -> atMost off (oldOffsets text) = 1 + linesBefore text off.
Proof.
  intros Hoff. unfold oldOffsets.
  pose proof (offsetsFrom_atMost text 0 off) as H.
  replace (off - Z.of_nat 0) with off in H by lia.
  unfold atMost in *. cbn [List.filter].
  destruct (Z.leb_spec 0 off); [|lia]. cbn [length].
  rewrite Nat2Z.inj_succ. lia.
Qed.

Lemma oldOffsets_sorted (text : jsstring) : StronglySorted Z.lt (oldOffsets text).
Proof.
  unfold oldOffsets. constructor; [apply offsetsFrom_sorted|].
  apply (offsetsFrom_above 0).
Qed.

Lemma offsetToLine_line (text : jsstring) (off : Z) :
  0 <= off -> Z.of_nat (length text) < 2147483647 ->
  offsetToLine (oldOffsets text) off = linesBefore text off.
Proof.
  intros Hoff Hlen. unfold offsetToLine.
  assert (Hl : Z.of_nat (length (oldOffsets text)) < 2147483648).
  { unfold oldOffsets. cbn [length].
    pose proof (offsetsFrom_length 0 text). lia. }
  pose proof (oldOffsets_atMost text off Hoff) as Hc.
  assert (Hcl : atMost off (oldOffsets text) <= Z.of_nat (length (oldOffsets text))).
  { unfold atMost. apply inj_le, List.filter_length_le. }
  rewrite (searchLoop_last _ off (oldOffsets_sorted text) Hl); unfold linesBefore in *; lia.
Qed.

(** X12.  For an offset into the old text (texts being shorter than 2^31
    code units), the binary search over the line starts returns the 0-based
    line the offset is on, that is the number of line feeds before it: the
    line start it selects is at or before the offset and the next line
    start, if there is one, is after it. *)
Theorem offsetToLine_is_line_of_offset (text : jsstring) (off : Z) :
  0 <= off -> Z.of_nat (length text) < 2147483647 ->
  let r := offsetToLine (oldOffsets text) off in
  r = linesBefore text off
  /\ 0 <= r < Z.of_nat (length (oldOffsets text))
  /\ rd (oldOffsets text) (Z.to_nat r) <= off
  /\ (r + 1 < Z.of_nat (length (oldOffsets text)) ->
      off < rd (oldOffsets text) (Z.to_nat (r + 1))).
Proof.
  intros Hoff Hlen r.
  assert (Hr : r = linesBefore text off) by now apply offsetToLine_line.
  pose proof (oldOffsets_atMost text off Hoff) as Hc.
  assert (Hcl : atMost off (oldOffsets text) <= Z.of_nat (length (oldOffsets text))).
  { unfold atMost. apply inj_le, List.filter_length_le. }
  assert (H0 : 0 <= linesBefore text off) by (unfold linesBefore; lia).
  clearbody r. subst r.
  split; [reflexivity|]. split; [lia|]. split.
  - apply (sorted_atMost off _ _ (oldOffsets_sorted text)); lia.
  - intros Hnext.
    pose proof (sorted_atMost off _ (Z.to_nat (linesBefore text off + 1))
                  (oldOffsets_sorted text) ltac:(lia)) as Hiff.
    destruct (Z.lt_ge_cases off
                (rd (oldOffsets text) (Z.to_nat (linesBefore text off + 1))));
      [assumption|].
    assert (Z.of_nat (Z.to_nat (linesBefore text off + 1))
            < atMost off (oldOffsets text)) by (apply Hiff; lia).
    lia.
Qed.

Lemma offsetToLine_is_line_of_offset_witness :
  let r := offsetToLine (oldOffsets (js "x\ny\nfoo\nbar\nz")) 5 in
  r = linesBefore (js "x\ny\nfoo\nbar\nz") 5
  /\ 0 <= r < Z.of_nat (length (oldOffsets (js "x\ny\nfoo\nbar\nz")))
  /\ rd (oldOffsets (js "x\ny\nfoo\nbar\nz")) (Z.to_nat r) <= 5
  /\ (r + 1 < Z.of_nat (length (oldOffsets (js "x\ny\nfoo\nbar\nz"))) ->
      5 < rd (oldOffsets (js "x\ny\nfoo\nbar\nz")) (Z.to_nat (r + 1))).
Proof.
  apply (offsetToLine_is_line_of_offset (js "x\ny\nfoo\nbar\nz") 5).
  - lia.
  - vm_compute. reflexivity.
Defined.

(** [indexOf] finds the first occurrence. *)
Lemma indexOfFrom_first (s p : jsstring) (k : nat) :
  0 <= indexOfFrom k s p ->
  exists pre post,
    s = pre ++ p ++ post
    /\ indexOfFrom k s p = Z.of_nat (k + length pre)
    /\ (forall pre' post', s = pre' ++ p ++ post' ->
                           (length pre <= length pre')%nat).
Proof.
  revert k; induction s as [|c s IH]; intros k; cbn [indexOfFrom].
  - destruct (startsWith [] p) eqn:Hsw; [|lia]. intros _.
    apply startsWith_prefix in Hsw as [post Hpost].
    exists [], post. cbn. split_and!; [exact Hpost|f_equal; lia|intros; lia].
  - destruct (startsWith (c :: s) p) eqn:Hsw.
    + intros _. apply startsWith_prefix in Hsw as [post Hpost].
      exists [], post. cbn. split_and!; [exact Hpost|f_equal; lia|intros; lia].
    + intros Hk. destruct (IH (S k) Hk) as (pre & post & Hs & Hi & Hmin).
      exists (c :: pre), post. split_and!.
      * cbn. now rewrite Hs at 1.
      * rewrite Hi. cbn. f_equal. lia.
      * intros pre' post' Hs'. destruct pre' as [|c' pre'].
        -- cbn in Hs'.
           assert (startsWith (c :: s) p = true)
             by (apply startsWith_prefix; now exists post').
           congruence.
        -- cbn in Hs'. injection Hs' as _ Hs'.
           cbn. apply le_n_S. now apply (Hmin pre' post').
Qed.

Lemma linesBefore_prefix (pre rest : jsstring) :
  linesBefore (pre ++ rest) (Z.of_nat (length pre))
  = Z.of_nat (length (List.filter (fun c => (c =? LF)%N) pre)).
Proof.
  unfold linesBefore. rewrite Nat2Z.id, take_app_length. reflexivity.
Qed.

(** X11.  Every moved entry is one of the added spans, and what it says
    about its origin is true of the first verbatim occurrence of the span's
    text (its lines joined by line feeds, not blank) in the old text: the
    origin starts on the line that occurrence starts on, spans as many
    lines as the added span, and starts more than one line away from where
    the span is in the new text (old texts being shorter than 2^31 code
    units). *)
Theorem moved_entry_origin (oldText newText : jsstring) (mv : Moved) :
  let h := computeChangeHints oldText newText in
  let block := join (slice (split newText) (start mv) (end_ mv + 1)) in
  In mv (moved h) -> Z.of_nat (length oldText) < 2147483647 ->
  In (start mv, end_ mv) (added h)
  /\ fromEnd mv - fromStart mv = end_ mv - start mv
  /\ 1 < Z.abs (fromStart mv - start mv)
  /\ stripWhiteSpace block <> []
  /\ exists pre post,
       oldText = pre ++ block ++ post
       /\ fromStart mv = Z.of_nat (length (List.filter (fun c => (c =? LF)%N) pre))
       /\ (forall pre' post', oldText = pre' ++ block ++ post' ->
                              (length pre <= length pre')%nat).
Proof.
  intros h block Hin Hlen.
  subst h. unfold computeChangeHints in *. cbn [moved added] in *.
  set (ar := addedRemoved (split oldText) (split newText)) in *.
  unfold movedHints in Hin.
  destruct (_ && _)%bool; [|contradiction].
  apply in_concat in Hin as (l & Hl & Hmv).
  apply in_map_iff in Hl as ([s e] & <- & Hspan).
  unfold movedOf in Hmv.
  destruct (truthy (stripWhiteSpace (join (slice (split newText) s (e + 1)))))
    eqn:Hblank; cbn [negb] in Hmv; [|contradiction].
  destruct (Z.geb_spec (indexOf oldText (join (slice (split newText) s (e + 1)))) 0)
    as [Hfound|]; [|contradiction].
  destruct (Z.gtb_spec
              (Z.abs (offsetToLine (oldOffsets oldText)
                        (indexOf oldText (join (slice (split newText) s (e + 1)))) - s)) 1)
    as [Hfar|]; [|contradiction].
  destruct Hmv as [<-|[]]. subst block. cbn [start end_ fromStart fromEnd].
  split; [exact Hspan|]. split; [lia|]. split; [exact Hfar|].
  split; [now apply truthy_true|].
  unfold indexOf in *.
  destruct (indexOfFrom_first oldText _ 0 Hfound) as (pre & post & Hs & Hi & Hmin).
  exists pre, post. split_and!; [exact Hs| |exact Hmin].
  rewrite Hi, offsetToLine_line by lia. cbn [Nat.add].
  rewrite Hs at 1. apply linesBefore_prefix.
Qed.

Lemma moved_entry_origin_witness :
  let oldText := js "x\ny\nfoo\nbar\nz" in
  let newText := js "x\nfoo\nbar\ny\nz" in
  let mv := {| start := 3; end_ := 3; fromStart := 1; fromEnd := 1 |} in
  let h := computeChangeHints oldText newText in
  let block := join (slice (split newText) (start mv) (end_ mv + 1)) in
  In (start mv, end_ mv) (added h)
  /\ fromEnd mv - fromStart mv = end_ mv - start mv
  /\ 1 < Z.abs (fromStart mv - start mv)
  /\ stripWhiteSpace block <> []
  /\ exists pre post,
       oldText = pre ++ block ++ post
       /\ fromStart mv = Z.of_nat (length (List.filter (fun c => (c =? LF)%N) pre))
       /\ (forall pre' post', oldText = pre' ++ block ++ post' ->
                              (length pre <= length pre')%nat).
Proof.
  apply (moved_entry_origin (js "x\ny\nfoo\nbar\nz") (js "x\nfoo\nbar\ny\nz")
           {| start := 3; end_ := 3; fromStart := 1; fromEnd := 1 |}).
  - vm_compute. now left.
  - vm_compute. reflexivity.
Defined.

(* ================================================================== *)
(** ** More on apply and visualise: where the decorations go *)
(* ================================================================== *)

(** The host breaks lines wherever the diff does (and at lone carriage
    returns), so it has at least as many lines. *)
Lemma split_le_hostLines (t : jsstring) :
  (length (split t) <= length (hostLines t))%nat.
Proof.
  induction t as [|c r IH]; [simpl; lia|].
  pose proof (split_nonempty r) as Hs.
  pose proof (hostLines_nonempty r) as Hh.
  cbn [split hostLines].
  destruct ((c =? CR)%N && _)%bool; [exact IH|].
  destruct (split r) as [|l ls]; [simpl in Hs; lia|].
  destruct (hostLines r) as [|l' ls']; [simpl in Hh; lia|].
  destruct (c =? LF)%N, (c =? CR)%N; simpl in *; lia.
Qed.

Lemma concat_map_singleton {X Y} (P : X -> Prop) (f : X -> list Y) (g : X -> Y)
      (l : list X) :
  (forall x, P x -> f x = [g x]) -> Forall P l -> concat (map f l) = map g l.
Proof.
  intros Hf. induction 1 as [|x l Hx _ IH]; [reflexivity|].
  cbn. now rewrite (Hf x Hx), IH.
Qed.

Lemma moved_span_added (oldText newText : jsstring) :
  Forall (fun mv => In (start mv, end_ mv)
                       (added (computeChangeHints oldText newText)))
         (moved (computeChangeHints oldText newText)).
Proof.
  apply List.Forall_forall. intros mv Hin.
  unfold computeChangeHints in *. cbn [moved added] in *.
  unfold movedHints in Hin. destruct (_ && _)%bool; [|contradiction].
  apply in_concat in Hin as (l & Hl & Hmv).
  apply in_map_iff in Hl as ([s e] & <- & Hspan).
  unfold movedOf in Hmv.
  repeat match type of Hmv with
         | In _ (if ?b then _ else _) => destruct b
         end; try contradiction.
  destruct Hmv as [<-|[]]. exact Hspan.
Qed.

(** The decoration an added span, a removed entry and a moved entry get,
    when nothing is clamped. *)
Definition addedDecoration (txt : jsstring) (span : Z * Z) : DecorationOptions :=
  {| range := {| rstart := {| line := span.1; character := 0 |};
                 rend := rend (lineRange txt span.2) |};
     label := NoLabel |}.

Definition removedDecoration (txt : jsstring) (r : Removed) : DecorationOptions :=
  {| range := lineRange txt (anchor r); label := RemovedLabel (count r) |}.

Definition movedDecoration (txt : jsstring) (mv : Moved) : DecorationOptions :=
  {| range := {| rstart := {| line := start mv; character := 0 |};
                 rend := rend (lineRange txt (end_ mv)) |};
     label := MovedLabel (fromStart mv + 1) (fromEnd mv + 1) |}.

Definition onDocument (txt : jsstring) (d : DecorationOptions) : Prop :=
  0 <= line (rstart (range d)) <= line (rend (range d))
  /\ line (rend (range d)) < lineCount txt.

(** X14.  After a call the document holds the new text, and the three
    decoration types the call creates hold one decoration for every added
    span, every removed entry and every moved entry of the diff, on exactly
    the lines the diff names: for hints computed by the diff the skips
    ([startLine > endLine], [count <= 0]) and the clamps to the document
    never apply, and every decoration lies on lines of the new document. *)
Theorem decorations_follow_hints (now : Z) (newText : jsstring) (e : Editor) :
  let e' := replaceDocumentWithHighlight now newText e in
  let h := computeChangeHints (text e) newText in
  text e' = newText
  /\ decorations e' !! nextType e = Some (map (addedDecoration newText) (added h))
  /\ decorations e' !! (nextType e + 1)%nat
     = Some (map (removedDecoration newText) (removed h))
  /\ decorations e' !! (nextType e + 2)%nat
     = Some (map (movedDecoration newText) (moved h))
  /\ Forall (onDocument newText)
       (map (addedDecoration newText) (added h)
        ++ map (removedDecoration newText) (removed h)
        ++ map (movedDecoration newText) (moved h)).
Proof.
  intros e' h.
  destruct (hints_shape (text e) newText) as (_ & Hadd & Hrem). fold h in Hadd, Hrem.
  pose proof (moved_span_added (text e) newText) as Hmov. fold h in Hmov.
  assert (Hlines : Z.of_nat (length (split newText)) <= lineCount newText).
  { unfold lineCount. apply inj_le, split_le_hostLines. }
  assert (Hmov' : Forall (fun mv => 0 <= start mv <= end_ mv
                                    /\ end_ mv < Z.of_nat (length (split newText)))
                         (moved h)).
  { eapply Forall_impl; [exact Hmov|]. cbn. intros mv Hin.
    rewrite List.Forall_forall in Hadd. apply (Hadd _ Hin). }
  assert (Ha : addedRanges newText (added h)
               = map (addedDecoration newText) (added h)).
  { unfold addedRanges.
    eapply concat_map_singleton; [|exact Hadd]. intros span Hs.
    destruct span as [s0 e0]; cbn in *.
    destruct (Z.gtb_spec s0 e0); [lia|]. unfold addedDecoration. cbn.
    now rewrite Z.max_r, Z.max_r, Z.min_r by lia. }
  assert (Hr : removedRanges newText (removed h)
               = map (removedDecoration newText) (removed h)).
  { unfold removedRanges.
    eapply concat_map_singleton; [|exact Hrem]. intros r Hs.
    cbn in *. destruct (Z.leb_spec (count r) 0); [lia|].
    unfold removedDecoration.
    now rewrite (Z.max_r 0 (anchor r)), (Z.max_r 0 (lineCount newText - 1)),
      Z.min_l by lia. }
  assert (Hm : movedRanges newText (moved h)
               = map (movedDecoration newText) (moved h)).
  { unfold movedRanges.
    eapply concat_map_singleton; [|exact Hmov']. intros mv Hs.
    cbn in *. destruct (Z.gtb_spec (start mv) (end_ mv)); [lia|].
    unfold movedDecoration.
    now rewrite (Z.min_l (start mv)), (Z.min_l (end_ mv)), !Z.max_r by lia. }
  subst e'. unfold replaceDocumentWithHighlight. rewrite lineCount_pos.
  cbn [text decorations]. fold h. rewrite Ha, Hr, Hm.
  split_and!.
  - reflexivity.
  - rewrite !lookup_insert_ne by lia. apply lookup_insert_eq.
  - rewrite lookup_insert_ne by lia. apply lookup_insert_eq.
  - apply lookup_insert_eq.
  - rewrite !Forall_app. split_and!; apply Forall_map.
    + eapply Forall_impl; [exact Hadd|]. unfold onDocument. cbn. intros; lia.
    + eapply Forall_impl; [exact Hrem|]. unfold onDocument. cbn. intros; lia.
    + eapply Forall_impl; [exact Hmov'|]. unfold onDocument. cbn. intros; lia.
Qed.

(* ================================================================== *)
(** ** The key terms sent to the provider: [buildKeytermsFinal] *)
(* ================================================================== *)

Module Keyterms.

Definition MAX_KEYTERMS : nat := 100.
Definition MAX_TOKEN_APPROX : nat := 500.

(** [s.split(/\s+/)]: a separator is a maximal run of white space;
    [inWs] tells that the code unit before was white space. *)
Fixpoint splitWsFrom (inWs : bool) (s : jsstring) : list jsstring :=
  match s with
  | [] => [[]]
  | c :: r =>
      if isWhiteSpace c then
        if inWs then splitWsFrom true r else [] :: splitWsFrom true r
      else match splitWsFrom false r with
           | l :: ls => (c :: l) :: ls
           | [] => [[c]]
           end
  end.

Definition splitWs (s : jsstring) : list jsstring := splitWsFrom false s.

(** [p.trim().split(/\s+/).filter(Boolean).length] *)
Definition wordCount (p : jsstring) : nat :=
  length (List.filter truthy (splitWs (trim p))).

Definition approxTokenCount (phrases : list jsstring) : nat :=
  fold_left (fun total p => (total + wordCount p)%nat) phrases 0%nat.

(** A [Set] of strings: its elements in insertion order. *)
Definition setAdd (x : jsstring) (set : list jsstring) : list jsstring :=
  if bool_decide (x ∈ set) then set else set ++ [x].

(** The loop [while (approxTokenCount(arr) > MAX_TOKEN_APPROX && arr.length > 1)
    arr.pop()]. *)
Fixpoint popLoop (fuel : nat) (arr : list jsstring) : list jsstring :=
  match fuel with
  | O => arr
  | S fuel' =>
      if ((MAX_TOKEN_APPROX <? approxTokenCount arr) && (1 <? length arr))%nat
      then popLoop fuel' (removelast arr)
      else arr
  end.

Section WithHost.
(** [String.prototype.toLowerCase], and what the collaborators return:
    [canonicalCommandPhrases()], [codeVocabForLanguage(languageId)] and
    [identifiersFromActiveEditor(30)]. *)
Variable toLowerCase : jsstring -> jsstring.
Variables canonical vocab ids : list jsstring.

(** Step 1: the pool, lower-cased. *)
Definition lowerSet (set : list jsstring) (terms : list jsstring) : list jsstring :=
  fold_left (fun set t => setAdd (toLowerCase t) set) terms set.

(** Step 2: the canonical command phrases, lower-cased and trimmed, the
    empty ones left out. *)
Definition canonicalSet (set : list jsstring) : list jsstring :=
  fold_left (fun set c => let s := trim (toLowerCase c) in
                          if truthy s then setAdd s set else set)
            canonical set.

(** Step 4: the identifiers, as they are. *)
Definition idSet (set : list jsstring) : list jsstring :=
  fold_left (fun set id => setAdd id set) ids set.

Definition allTerms (basePool : list jsstring) : list jsstring :=
  idSet (lowerSet (canonicalSet (lowerSet [] basePool)) vocab).

Definition buildKeytermsFinal (basePool : list jsstring) : list jsstring :=
  let arr := allTerms basePool in
  let arr := if (MAX_KEYTERMS <? length arr)%nat then take MAX_KEYTERMS arr else arr in
  popLoop (length arr) arr.

End WithHost.

End Keyterms.

Example splitWs_lit :
  Keyterms.splitWs (js " go  to line ") = [js ""; js "go"; js "to"; js "line"; js ""]
  /\ Keyterms.splitWs (js "") = [js ""]
  /\ Keyterms.wordCount (js " go  to line ") = 3%nat
  /\ Keyterms.wordCount (js "  ") = 0%nat.
Proof. split_and!; reflexivity. Qed.

Section KeytermFacts.
Import Keyterms.
Variable toLowerCase : jsstring -> jsstring.
Variables canonical vocab ids : list jsstring.

Lemma setAdd_prefix x set : set `prefix_of` setAdd x set.
Proof.
  unfold setAdd. case_bool_decide; [reflexivity|]. now apply prefix_app_r.
Qed.

Lemma setAdd_NoDup x set : NoDup set -> NoDup (setAdd x set).
Proof.
  intros Hn. unfold setAdd. case_bool_decide as Hin; [exact Hn|].
  apply NoDup_app. split_and!; [exact Hn| |apply NoDup_singleton].
  intros y Hy Hx. apply list_elem_of_singleton in Hx. now subst.
Qed.

(** Adding only appends, and never a term that is already there. *)
Lemma fold_set_grows {X} (f : list jsstring -> X -> list jsstring) (l : list X) :
  (forall set x, set `prefix_of` f set x /\ (NoDup set -> NoDup (f set x))) ->
  forall set, set `prefix_of` fold_left f l set
              /\ (NoDup set -> NoDup (fold_left f l set)).
Proof.
  intros Hf. induction l as [|x l IH]; intros set; simpl; [now split|].
  destruct (Hf set x) as [Hp Hn]. destruct (IH (f set x)) as [Hp' Hn'].
  split; [now transitivity (f set x)|auto].
Qed.

Lemma lowerSet_grows set terms :
  set `prefix_of` lowerSet toLowerCase set terms
  /\ (NoDup set -> NoDup (lowerSet toLowerCase set terms)).
Proof.
  apply fold_set_grows. intros s x.
  split; [apply setAdd_prefix|apply setAdd_NoDup].
Qed.

Lemma canonicalSet_grows set :
  set `prefix_of` canonicalSet toLowerCase canonical set
  /\ (NoDup set -> NoDup (canonicalSet toLowerCase canonical set)).
Proof.
  apply fold_set_grows. intros s x. cbv zeta.
  destruct (truthy _); [|now split].
  split; [apply setAdd_prefix|apply setAdd_NoDup].
Qed.

Lemma idSet_grows set :
  set `prefix_of` idSet ids set /\ (NoDup set -> NoDup (idSet ids set)).
Proof.
  apply fold_set_grows. intros s x.
  split; [apply setAdd_prefix|apply setAdd_NoDup].
Qed.

Lemma allTerms_NoDup basePool :
  NoDup (allTerms toLowerCase canonical vocab ids basePool)
  /\ lowerSet toLowerCase [] basePool
     `prefix_of` allTerms toLowerCase canonical vocab ids basePool.
Proof.
  unfold allTerms. split.
  - apply idSet_grows, lowerSet_grows, canonicalSet_grows, lowerSet_grows.
    constructor.
  - etransitivity; [apply canonicalSet_grows|].
    etransitivity; [apply lowerSet_grows|]. apply idSet_grows.
Qed.

Lemma removelast_prefix {X} (l : list X) : removelast l `prefix_of` l.
Proof.
  destruct l as [|x l] using rev_ind; [reflexivity|].
  rewrite removelast_last. now apply prefix_app_r.
Qed.

Lemma removelast_length {X} (l : list X) :
  length (removelast l) = (length l - 1)%nat.
Proof.
  destruct l as [|x l] using rev_ind; [reflexivity|].
  rewrite removelast_last, length_app. simpl. lia.
Qed.

(** The loop only pops, and with the length of the array as fuel it has
    exited: the budget is met or one term is left. *)
Lemma popLoop_spec (fuel : nat) (arr : list jsstring) :
  (length arr <= fuel)%nat ->
  popLoop fuel arr `prefix_of` arr
  /\ ((approxTokenCount (popLoop fuel arr) <= MAX_TOKEN_APPROX)%nat
      \/ (length (popLoop fuel arr) <= 1)%nat)
  /\ (arr <> [] -> popLoop fuel arr <> []).
Proof.
  revert arr; induction fuel as [|fuel IH]; intros arr Hlen; simpl.
  - split_and!; [reflexivity|right; lia|auto].
  - destruct (Nat.ltb_spec MAX_TOKEN_APPROX (approxTokenCount arr)) as [Hover|Hok];
      cbn [andb]; [|split_and!; [reflexivity|left; lia|auto]].
    destruct (Nat.ltb_spec 1 (length arr)) as [Hmany|Hone];
      [|split_and!; [reflexivity|right; lia|auto]].
    pose proof (removelast_length arr) as Hrl.
    destruct (IH (removelast arr) ltac:(lia)) as (Hp & Hb & Hne).
    split_and!.
    + etransitivity; [exact Hp|apply removelast_prefix].
    + exact Hb.
    + intros _. apply Hne. intros Hnil. rewrite Hnil in Hrl. simpl in Hrl. lia.
Qed.

(** X15.  Whatever the pool, the command phrases, the vocabulary and the
    identifiers are, the key terms sent are at most 100, without
    duplicates, and are the first terms of the whole collection in insertion
    order; their rough token count is at most 500 unless a single term is
    left; and the list is empty only when the collection is. *)
Theorem keyterms_within_budget (basePool : list jsstring) :
  let all := allTerms toLowerCase canonical vocab ids basePool in
  let kt := buildKeytermsFinal toLowerCase canonical vocab ids basePool in
  (length kt <= 100)%nat
  /\ NoDup kt
  /\ kt `prefix_of` all
  /\ ((approxTokenCount kt <= 500)%nat \/ (length kt <= 1)%nat)
  /\ (kt = [] <-> all = []).
Proof.
  intros all kt. subst kt. unfold buildKeytermsFinal. fold all.
  set (arr := if (MAX_KEYTERMS <? length all)%nat then take MAX_KEYTERMS all else all).
  assert (Harr : arr `prefix_of` all /\ (length arr <= 100)%nat
                 /\ (arr = [] <-> all = [])).
  { subst arr. destruct (Nat.ltb_spec MAX_KEYTERMS (length all)) as [Hlt|Hle].
    - split_and!; [apply prefix_take|rewrite length_take; unfold MAX_KEYTERMS; lia|].
      unfold MAX_KEYTERMS in *.
      destruct all; [simpl in Hlt; lia|]. split; discriminate.
    - split_and!; [reflexivity|exact Hle|reflexivity]. }
  destruct Harr as (Hpre & Hlen & Hnil).
  destruct (popLoop_spec (length arr) arr (le_n _)) as (Hp & Hb & Hne).
  pose proof (prefix_length _ _ Hp) as Hpl.
  split_and!.
  - lia.
  - assert (Hk : popLoop (length arr) arr `prefix_of` all) by now transitivity arr.
    destruct Hk as [rest Hrest].
    pose proof (proj1 (allTerms_NoDup basePool)) as Hnd. fold all in Hnd.
    rewrite Hrest in Hnd. now apply NoDup_app in Hnd as [Hnd _].
  - now transitivity arr.
  - exact Hb.
  - split.
    + intros Hk. apply Hnil. destruct arr; [reflexivity|].
      exfalso. apply Hne; [discriminate|exact Hk].
    + intros Ha. apply Hnil in Ha. clearbody arr. subst arr. reflexivity.
Qed.

Lemma lowerSet_elements set terms :
  Forall (fun x => x ∈ set \/ x ∈ map toLowerCase terms)
         (lowerSet toLowerCase set terms).
Proof.
  unfold lowerSet. revert set.
  induction terms as [|t terms IH]; intros set; simpl.
  - apply Forall_forall. auto.
  - eapply Forall_impl; [apply IH|]. cbn. intros x [Hx|Hx].
    + unfold setAdd in Hx. case_bool_decide; [now left|].
      apply elem_of_app in Hx as [Hx|Hx]; [now left|].
      apply list_elem_of_singleton in Hx. subst. right. left.
    + right. now right.
Qed.

(** X16.  When the pool alone has 100 distinct lower-cased terms or more,
    every key term sent is a lower-cased term of the pool: the command
    phrases, the language vocabulary and the identifiers of the open file
    come after the pool and the cap of 100 leaves them all out. *)
Theorem keyterms_from_pool_only (basePool : list jsstring) :
  (100 <= length (lowerSet toLowerCase [] basePool))%nat ->
  let kt := buildKeytermsFinal toLowerCase canonical vocab ids basePool in
  kt `prefix_of` lowerSet toLowerCase [] basePool
  /\ Forall (fun x => x ∈ map toLowerCase basePool) kt.
Proof.
  intros Hbig kt.
  assert (Hpre : kt `prefix_of` lowerSet toLowerCase [] basePool).
  { subst kt. unfold buildKeytermsFinal.
    set (all := allTerms toLowerCase canonical vocab ids basePool).
    destruct (allTerms_NoDup basePool) as [_ [rest Hall]]. fold all in Hall.
    set (arr := if (MAX_KEYTERMS <? length all)%nat then take MAX_KEYTERMS all else all).
    assert (Harr : arr `prefix_of` lowerSet toLowerCase [] basePool).
    { subst arr. unfold MAX_KEYTERMS.
      destruct (Nat.ltb_spec 100 (length all)) as [Hlt|Hle].
      - rewrite Hall, take_app_le by lia. apply prefix_take.
      - rewrite Hall, length_app in Hle.
        assert (rest = []) by (destruct rest; [reflexivity|simpl in Hle; lia]).
        subst rest. rewrite Hall, app_nil_r. reflexivity. }
    destruct (popLoop_spec (length arr) arr (le_n _)) as (Hp & _).
    now transitivity arr. }
  split; [exact Hpre|].
  destruct Hpre as [rest Hrest].
  pose proof (lowerSet_elements [] basePool) as Hel.
  rewrite Hrest in Hel. apply Forall_app in Hel as [Hel _].
  eapply Forall_impl; [exact Hel|]. cbn. intros x [Hx|Hx]; [|exact Hx].
  now apply elem_of_nil in Hx.
Qed.

End KeytermFacts.

Lemma keyterms_from_pool_only_witness :
  let pool := map (fun k => [N.of_nat k]) (seq 0 120) in
  let kt := Keyterms.buildKeytermsFinal (fun s => s) [js "save"] [js "print"] [js "foo"] pool in
  kt `prefix_of` Keyterms.lowerSet (fun s => s) [] pool
  /\ Forall (fun x => x ∈ map (fun s => s) pool) kt.
Proof.
  apply (keyterms_from_pool_only (fun s => s) [js "save"] [js "print"] [js "foo"]
           (map (fun k => [N.of_nat k]) (seq 0 120))).
  vm_compute. lia.
Defined.

(* ================================================================== *)
(** ** The reply of the language model: [stripMarkdownCodeFence] *)
(* ================================================================== *)

Module Fence.

Definition BACKTICK : N := 96%N.
Definition TILDE : N := 126%N.

(** The class [[a-zA-Z0-9+_.-]] of an info string. *)
Definition isInfo (c : N) : bool :=
  ((97 <=? c) && (c <=? 122) || (65 <=? c) && (c <=? 90)
   || (48 <=? c) && (c <=? 57)
   || (c =? 43) || (c =? 95) || (c =? 46) || (c =? 45))%N%bool.

(** What is left after the longest run matched by [[a-zA-Z0-9+_.-]*].  The
    run is followed by a line feed in the four patterns and has none, so no
    shorter run can match in its place. *)
Fixpoint skipInfo (s : jsstring) : jsstring :=
  match s with
  | c :: r => if isInfo c then skipInfo r else s
  | [] => []
  end.

(** The opening [mark], an info string and a line feed at the start of [s]:
    what follows them. *)
Definition opening (mark : jsstring) (s : jsstring) : option jsstring :=
  if startsWith s mark then
    match skipInfo (drop (length mark) s) with
    | c :: body => if (c =? LF)%N then Some body else None
    | [] => None
    end
  else None.

(** [([\s\S]*?)tail$]: the group is what comes before the [tail] the text
    ends with. *)
Definition upToEnd (tail : jsstring) (s : jsstring) : option jsstring :=
  if ((length tail <=? length s)%nat && endsWith s tail)%bool
  then Some (take (length s - length tail) s) else None.

(** [([\s\S]*?)```]: the group is what comes before the first [```]. *)
Fixpoint upToFirst (mark : jsstring) (s : jsstring) : option jsstring :=
  if startsWith s mark then Some []
  else match s with
       | [] => None
       | c :: r => option_map (cons c) (upToFirst mark r)
       end.

(** [/^```[a-zA-Z0-9+_.-]*\n([\s\S]*?)\n```$/] and the like: the group of
    the match, if any. *)
Definition anchored (mark tail : jsstring) (t : jsstring) : option jsstring :=
  match opening mark t with
  | Some body => upToEnd tail body
  | None => None
  end.

(** [/```[a-zA-Z0-9+_.-]*\n([\s\S]*?)```/]: the first position where the
    whole pattern matches. *)
Fixpoint anywhere (mark : jsstring) (t : jsstring) : option jsstring :=
  match (match opening mark t with
         | Some body => upToFirst mark body
         | None => None
         end) with
  | Some g => Some g
  | None => match t with
            | [] => None
            | _ :: r => anywhere mark r
            end
  end.

Definition ticks : jsstring := [BACKTICK; BACKTICK; BACKTICK].
Definition tildes : jsstring := [TILDE; TILDE; TILDE].

Definition stripMarkdownCodeFence (text : jsstring) : jsstring :=
  if negb (truthy text) then text
  else
    let t := trim text in
    match anchored ticks (LF :: ticks) t with
    | Some g => g
    | None =>
        match anchored ticks ticks t with
        | Some g => g
        | None =>
            match anywhere ticks t with
            | Some g => g
            | None =>
                match anchored tildes (LF :: tildes) t with
                | Some g => g
                | None => t
                end
            end
        end
    end.

(** A fenced block as the model is asked to write it. *)
Definition fenced (info code : jsstring) : jsstring :=
  ticks ++ info ++ LF :: code ++ LF :: ticks.

End Fence.

Import Fence.

Example strip_lit :
  stripMarkdownCodeFence (js "```ts\nlet x = 1;\n```") = js "let x = 1;"
  /\ stripMarkdownCodeFence (js "```\nx```") = js "x"
  /\ stripMarkdownCodeFence (js "modification ```py\nx = 1\n``` done") = js "x = 1\n"
  /\ stripMarkdownCodeFence (js "~~~\nx\n~~~") = js "x"
  /\ stripMarkdownCodeFence (js "  x = 1  ") = js "x = 1"
  /\ stripMarkdownCodeFence (js "```\n```") = js "".
Proof. split_and!; reflexivity. Qed.

Lemma skipInfo_info (info rest : jsstring) :
  forallb isInfo info = true -> skipInfo (info ++ LF :: rest) = LF :: rest.
Proof.
  induction info as [|c info IH]; [reflexivity|].
  cbn. intros H. apply andb_true_iff in H as [-> H]. now apply IH.
Qed.

Lemma startsWith_app (p s : jsstring) : startsWith (p ++ s) p = true.
Proof. apply startsWith_prefix. now exists s. Qed.

Lemma endsWith_app (s p : jsstring) : endsWith (s ++ p) p = true.
Proof. apply endsWith_suffix. now exists s. Qed.

Lemma trimStart_first (c : N) (s : jsstring) :
  isWhiteSpace c = false -> trimStart (c :: s) = c :: s.
Proof. cbn. now intros ->. Qed.

Lemma trimStart_skip (ws y : jsstring) :
  forallb isWhiteSpace ws = true -> trimStart (ws ++ y) = trimStart y.
Proof.
  induction ws as [|w ws IH]; [reflexivity|].
  cbn. intros H. apply andb_true_iff in H as [-> H]. now apply IH.
Qed.

Lemma allWs_rev (l : jsstring) :
  forallb isWhiteSpace l = true -> forallb isWhiteSpace (rev l) = true.
Proof.
  rewrite !List.forallb_forall. intros H x Hx. apply H, List.in_rev, Hx.
Qed.

(** Trimming removes the white space around a trimmed text. *)
Lemma trim_pad (before x after : jsstring) :
  forallb isWhiteSpace before = true -> forallb isWhiteSpace after = true ->
  tidy x -> x <> [] -> trim (before ++ x ++ after) = x.
Proof.
  intros Hb Ha [Hl Ht] Hne. unfold trim, trimEnd.
  rewrite (trimStart_skip _ _ Hb).
  rewrite (trimStart_id (x ++ after)) by now apply noLead_app.
  rewrite rev_app_distr, trimStart_skip by now apply allWs_rev.
  rewrite (trimStart_id _ Ht). apply rev_involutive.
Qed.

Lemma fenced_tidy (info code : jsstring) : tidy (fenced info code).
Proof.
  split; [reflexivity|].
  unfold noTrail, fenced.
  replace (ticks ++ info ++ LF :: code ++ LF :: ticks)
    with ((ticks ++ info ++ LF :: code ++ [LF]) ++ ticks).
  - rewrite rev_app_distr. reflexivity.
  - rewrite <- !app_assoc. cbn. rewrite <- !app_assoc. reflexivity.
Qed.

(** The first pattern: the fence closes after a line feed. *)
Lemma strip_fenced (info code before after : jsstring) :
  forallb isInfo info = true ->
  forallb isWhiteSpace before = true -> forallb isWhiteSpace after = true ->
  stripMarkdownCodeFence (before ++ fenced info code ++ after) = code.
Proof.
  intros Hinfo Hb Ha.
  assert (Htrim : trim (before ++ fenced info code ++ after) = fenced info code).
  { apply trim_pad; [assumption..|apply fenced_tidy|discriminate]. }
  unfold stripMarkdownCodeFence.
  assert (Hne : truthy (before ++ fenced info code ++ after) = true)
    by (destruct before; reflexivity).
  rewrite Hne, Htrim. cbn [negb].
  unfold anchored, opening, fenced.
  rewrite startsWith_app, drop_app_length, (skipInfo_info _ _ Hinfo).
  rewrite N.eqb_refl.
  unfold upToEnd.
  rewrite endsWith_app, length_app.
  destruct (Nat.leb_spec (length (LF :: ticks))
              (length code + length (LF :: ticks))) as [_|]; [|lia].
  cbn [andb].
  replace (length code + length (LF :: ticks) - length (LF :: ticks))%nat
    with (length code) by lia.
  now rewrite take_app_length.
Qed.

(** X17.  A fenced block gives back its code: for every info string of
    letters, digits and [+_.-], and for every code whatever it contains
    (fences included), stripping the fence from the block, with or without
    white space around it, returns exactly the code; so it does when the
    closing fence follows the code without a line feed, the code then not
    ending in one. *)
Theorem fenced_code_round_trip (info code before after : jsstring) :
  forallb isInfo info = true ->
  forallb isWhiteSpace before = true -> forallb isWhiteSpace after = true ->
  stripMarkdownCodeFence (before ++ fenced info code ++ after) = code
  /\ (last code <> Some LF ->
      stripMarkdownCodeFence (ticks ++ info ++ LF :: code ++ ticks) = code).
Proof.
  intros Hinfo Hb Ha. split; [now apply strip_fenced|].
  intros Hlast. unfold stripMarkdownCodeFence. cbn [truthy negb ticks app].
  fold ticks.
  assert (Htidy : tidy (ticks ++ info ++ LF :: code ++ ticks)).
  { split; [reflexivity|]. unfold noTrail.
    replace (ticks ++ info ++ LF :: code ++ ticks)
      with ((ticks ++ info ++ LF :: code) ++ ticks).
    - rewrite rev_app_distr. reflexivity.
    - rewrite <- !app_assoc. cbn. reflexivity. }
  change (BACKTICK :: BACKTICK :: BACKTICK :: info ++ LF :: code ++ ticks)
    with (ticks ++ info ++ LF :: code ++ ticks).
  rewrite (tidy_trim _ Htidy).
  unfold anchored, opening.
  rewrite startsWith_app, drop_app_length, (skipInfo_info _ _ Hinfo), N.eqb_refl.
  assert (Hno : upToEnd (LF :: ticks) (code ++ ticks) = None).
  { unfold upToEnd. destruct (endsWith (code ++ ticks) (LF :: ticks)) eqn:He;
      [|now rewrite andb_false_r].
    apply endsWith_suffix in He.
    change (LF :: ticks) with ([LF] ++ ticks) in He.
    apply suffix_app_inv in He as [k Hk].
    exfalso. apply Hlast. rewrite Hk. apply last_snoc. }
  rewrite Hno. unfold upToEnd.
  rewrite endsWith_app, length_app.
  destruct (Nat.leb_spec (length ticks) (length code + length ticks)) as [_|]; [|lia].
  cbn [andb].
  replace (length code + length ticks - length ticks)%nat with (length code) by lia.
  now rewrite take_app_length.
Qed.

Lemma fenced_code_round_trip_witness :
  stripMarkdownCodeFence (js " \n" ++ fenced (js "c++") (js "int x;\n```\ny") ++ js "\n")
  = js "int x;\n```\ny"
  /\ (last (js "int x;\n```\ny") <> Some LF ->
      stripMarkdownCodeFence (ticks ++ js "c++" ++ LF :: js "int x;\n```\ny" ++ ticks)
      = js "int x;\n```\ny").
Proof.
  apply (fenced_code_round_trip (js "c++") (js "int x;\n```\ny") (js " \n") (js "\n"));
    reflexivity.
Defined.

Lemma trimStart_Forall (P : N -> Prop) (s : jsstring) :
  Forall P s -> Forall P (trimStart s).
Proof.
  induction 1 as [|c s Hc Hs IH]; cbn; [constructor|].
  destruct (isWhiteSpace c); [exact IH|now constructor].
Qed.

Lemma trim_Forall (P : N -> Prop) (s : jsstring) : Forall P s -> Forall P (trim s).
Proof.
  intros H. unfold trim, trimEnd.
  apply Forall_rev, trimStart_Forall, Forall_rev, trimStart_Forall, H.
Qed.

Lemma opening_needs_mark (c : N) (mark t : jsstring) :
  Forall (fun d => d <> c) t -> opening (c :: mark) t = None.
Proof.
  intros H. unfold opening. destruct t as [|d t]; [reflexivity|].
  inversion H as [|? ? Hd _]; subst. cbn.
  destruct (N.eqb_spec c d); [congruence|reflexivity].
Qed.

Lemma anywhere_needs_mark (c : N) (mark t : jsstring) :
  Forall (fun d => d <> c) t -> anywhere (c :: mark) t = None.
Proof.
  induction 1 as [|d t Hd Ht IH].
  - reflexivity.
  - cbn [anywhere]. rewrite opening_needs_mark by now constructor. exact IH.
Qed.

(** X18.  A reply without a backtick and without a tilde has no fence to
    strip: it comes back trimmed, and nothing else is done to it. *)
Theorem plain_reply_is_trimmed (text : jsstring) :
  Forall (fun c => c <> BACKTICK /\ c <> TILDE) text ->
  stripMarkdownCodeFence text = trim text.
Proof.
  intros H. unfold stripMarkdownCodeFence.
  destruct text as [|c text]; [reflexivity|]. cbn [truthy negb].
  apply trim_Forall in H.
  assert (Hb : Forall (fun d => d <> BACKTICK) (trim (c :: text)))
    by (eapply Forall_impl; [exact H|]; cbn; tauto).
  assert (Ht : Forall (fun d => d <> TILDE) (trim (c :: text)))
    by (eapply Forall_impl; [exact H|]; cbn; tauto).
  unfold anchored, ticks, tildes.
  now rewrite !opening_needs_mark, anywhere_needs_mark by assumption.
Qed.

Lemma plain_reply_is_trimmed_witness :
  stripMarkdownCodeFence (js "  let x = 1;\n ") = trim (js "  let x = 1;\n ").
Proof.
  apply (plain_reply_is_trimmed (js "  let x = 1;\n ")).
  repeat constructor; discriminate.
Defined.

(* ================================================================== *)
(** ** More on the diff engine: the table of the walk *)
(* ================================================================== *)

(** The length of a longest common subsequence, by the usual recurrence;
    [lcs_common] and [lcs_greatest] say that it is one. *)
Fixpoint lcs (A B : list jsstring) : nat :=
  match A with
  | [] => 0%nat
  | a :: A' =>
      (fix inner (B : list jsstring) : nat :=
         match B with
         | [] => 0%nat
         | b :: B' =>
             if bool_decide (a = b) then S (lcs A' B')
             else Nat.max (lcs A' B) (inner B')
         end) B
  end.

Lemma lcs_cons (a b : jsstring) (A B : list jsstring) :
  lcs (a :: A) (b :: B)
  = if bool_decide (a = b) then S (lcs A B)
    else Nat.max (lcs A (b :: B)) (lcs (a :: A) B).
Proof. reflexivity. Qed.

Lemma lcs_nil_r (A : list jsstring) : lcs A [] = 0%nat.
Proof. now destruct A. Qed.

Lemma lcs_common (A B : list jsstring) :
  exists l, l `sublist_of` A /\ l `sublist_of` B /\ length l = lcs A B.
Proof.
  revert B; induction A as [|a A IHA]; intros B.
  - exists []. split_and!; [constructor|apply sublist_nil_l|reflexivity].
  - induction B as [|b B IHB].
    + exists []. split_and!; [apply sublist_nil_l|constructor|reflexivity].
    + rewrite lcs_cons. case_bool_decide as Hab.
      * subst b. destruct (IHA B) as (l & H1 & H2 & H3).
        exists (a :: l). split_and!; [now constructor..|simpl; lia].
      * destruct (Nat.max_spec (lcs A (b :: B)) (lcs (a :: A) B)) as [[_ ->]|[_ ->]].
        -- destruct IHB as (l & H1 & H2 & H3).
           exists l. split_and!; [exact H1|now constructor|exact H3].
        -- destruct (IHA (b :: B)) as (l & H1 & H2 & H3).
           exists l. split_and!; [now constructor|exact H2|exact H3].
Qed.

Lemma lcs_greatest (A B l : list jsstring) :
  l `sublist_of` A -> l `sublist_of` B -> (length l <= lcs A B)%nat.
Proof.
  revert B l; induction A as [|a A IHA]; intros B l HA HB.
  - apply sublist_nil_r in HA. subst. simpl. lia.
  - revert l HA HB. induction B as [|b B IHB]; intros l HA HB.
    + apply sublist_nil_r in HB. subst. simpl. lia.
    + rewrite lcs_cons.
      apply sublist_cons_r in HA as [HA|(l' & -> & HA)];
        apply sublist_cons_r in HB as [HB|(l'' & Heq & HB)].
      * case_bool_decide.
        -- specialize (IHA B l HA HB). lia.
        -- assert (length l <= lcs A (b :: B))%nat
             by (apply IHA; [exact HA|now apply sublist_cons]).
           lia.
      * subst l. case_bool_decide.
        -- assert (length l'' <= lcs A B)%nat.
           { apply IHA; [|exact HB]. etransitivity; [|exact HA].
             now apply sublist_cons. }
           simpl. lia.
        -- assert (length (b :: l'') <= lcs A (b :: B))%nat
             by (apply IHA; [exact HA|now apply sublist_skip]).
           lia.
      * case_bool_decide.
        -- assert (length l' <= lcs A B)%nat.
           { apply IHA; [exact HA|]. etransitivity; [|exact HB].
             now apply sublist_cons. }
           simpl. lia.
        -- assert (length (a :: l') <= lcs (a :: A) B)%nat
             by (apply IHB; [now apply sublist_skip|exact HB]).
           lia.
      * injection Heq as -> ->.
        rewrite bool_decide_eq_true_2 by reflexivity.
        specialize (IHA B l'' HA HB). simpl. lia.
Qed.

Lemma lcs_le_length (A B : list jsstring) :
  (lcs A B <= Nat.min (length A) (length B))%nat.
Proof.
  destruct (lcs_common A B) as (l & H1 & H2 & <-).
  apply sublist_length in H1, H2. lia.
Qed.

Lemma rd_wr_same (dp : list Z) (k : nat) (v : Z) :
  (k < length dp)%nat -> rd (wr dp k v) k = u16 v.
Proof. intros Hk. unfold rd, wr. now rewrite list_lookup_insert_eq. Qed.

Lemma rd_wr_other (dp : list Z) (k k' : nat) (v : Z) :
  k <> k' -> rd (wr dp k v) k' = rd dp k'.
Proof. intros Hk. unfold rd, wr. now rewrite list_lookup_insert_ne. Qed.

Lemma wr_length (dp : list Z) (k : nat) (v : Z) : length (wr dp k v) = length dp.
Proof. apply length_insert. Qed.

Lemma idx_inj (W i j i' j' : nat) :
  (j < W)%nat -> (j' < W)%nat -> idx W i j = idx W i' j' -> i = i' /\ j = j'.
Proof.
  unfold idx. intros Hj Hj' H.
  assert (Hi : i = ((i * W + j) / W)%nat)
    by (apply (Nat.div_unique _ _ _ j); lia).
  assert (Hi' : i' = ((i * W + j) / W)%nat)
    by (rewrite H; apply (Nat.div_unique _ _ _ j'); lia).
  assert (Hii : i = i') by congruence.
  split; [exact Hii|]. rewrite Hii in H. lia.
Qed.

Lemma fold_left_down {X} (f : X -> nat -> X) (k : nat) (x : X) :
  fold_left f (rev (seq 0 (S k))) x = fold_left f (rev (seq 0 k)) (f x k).
Proof. rewrite seq_S, rev_app_distr. reflexivity. Qed.

Lemma lcs_drop (A B : list jsstring) (i j : nat) :
  (i < length A)%nat -> (j < length B)%nat ->
  lcs (drop i A) (drop j B)
  = if sameLine A B i j then S (lcs (drop (S i) A) (drop (S j) B))
    else Nat.max (lcs (drop (S i) A) (drop j B)) (lcs (drop i A) (drop (S j) B)).
Proof.
  intros Hi Hj.
  apply lookup_lt_is_Some_2 in Hi as [a Ha].
  apply lookup_lt_is_Some_2 in Hj as [b Hb].
  rewrite (drop_S A a i Ha), (drop_S B b j Hb), lcs_cons.
  unfold sameLine. rewrite Ha, Hb.
  rewrite <- (drop_S B b j Hb), <- (drop_S A a i Ha).
  destruct (decide (a = b)) as [->|Hne].
  - now rewrite !bool_decide_eq_true_2.
  - rewrite !bool_decide_eq_false_2; [reflexivity|congruence|exact Hne].
Qed.

Section TableFacts.
Variables A B : list jsstring.
Let n := length A.
Let m := length B.
Let W := (m + 1)%nat.
Hypothesis short : Z.of_nat n < 65536 \/ Z.of_nat m < 65536.

(** The cells [done] are right: they hold the length of a longest common
    subsequence of the two suffixes; so do the last row and the last
    column, which stay zero. *)
Definition tableOk (done : nat -> nat -> Prop) (dp : list Z) : Prop :=
  length dp = ((n + 1) * (m + 1))%nat
  /\ forall i j, (i <= n)%nat -> (j <= m)%nat ->
                 i = n \/ j = m \/ done i j ->
                 rd dp (idx W i j) = Z.of_nat (lcs (drop i A) (drop j B)).

Lemma cell_ok (done : nat -> nat -> Prop) (dp : list Z) (i j : nat) :
  (i < n)%nat -> (j < m)%nat -> tableOk done dp ->
  done (i + 1)%nat (j + 1)%nat -> done (i + 1)%nat j -> done i (j + 1)%nat ->
  u16 (cell A B dp i j) = Z.of_nat (lcs (drop i A) (drop j B)).
Proof.
  intros Hi Hj [_ Hok] H11 H10 H01.
  rewrite (lcs_drop A B i j Hi Hj). unfold cell. fold W.
  rewrite !Hok by (auto; lia).
  replace (i + 1)%nat with (S i) by lia. replace (j + 1)%nat with (S j) by lia.
  pose proof (lcs_le_length (drop (S i) A) (drop (S j) B)) as L11.
  pose proof (lcs_le_length (drop (S i) A) (drop j B)) as L10.
  pose proof (lcs_le_length (drop i A) (drop (S j) B)) as L01.
  rewrite !length_drop in L11, L10, L01. fold n m in L11, L10, L01.
  unfold u16. destruct (sameLine A B i j); rewrite Z.mod_small; lia.
Qed.

Lemma fillRow_ok (i : nat) :
  (i < n)%nat ->
  forall k dp, (k <= m)%nat ->
    tableOk (fun i' j' => (i < i')%nat \/ (i' = i /\ (k <= j')%nat)) dp ->
    tableOk (fun i' j' => (i <= i')%nat)
            (fold_left (fun dp j => wr dp (idx W i j) (cell A B dp i j))
                       (rev (seq 0 k)) dp).
Proof.
  intros Hi. induction k as [|k IH]; intros dp Hk Hok.
  - cbn. destruct Hok as [Hlen Hok]. split; [exact Hlen|].
    intros i' j' Hi' Hj' Hd. apply Hok; [lia..|].
    destruct Hd as [?|[?|?]]; [auto..|]. right. right.
    destruct (decide (i' = i)); [right; split; [auto|lia]|left; lia].
  - rewrite fold_left_down. apply IH; [lia|].
    destruct Hok as [Hlen Hok]. split; [now rewrite wr_length|].
    intros i' j' Hi' Hj' Hd.
    destruct (decide (i' = i /\ j' = k)) as [[-> ->]|Hne].
    + rewrite rd_wr_same by (rewrite Hlen; unfold idx, W; nia).
      apply (cell_ok (fun i' j' => (i < i')%nat \/ (i' = i /\ (S k <= j')%nat)));
        [lia|lia|now split|left; lia|left; lia|right; split; [reflexivity|lia]].
    + rewrite rd_wr_other.
      * apply Hok; [lia..|].
        destruct Hd as [?|[?|[?|[? ?]]]]; [auto..|].
        right. right. right. split; [assumption|].
        destruct (decide (j' = k)); [exfalso; apply Hne; now split|lia].
      * intros Heq. apply idx_inj in Heq; [|unfold W; lia..].
        apply Hne. destruct Heq; now split.
Qed.

Lemma fillRows_ok :
  forall k dp, (k <= n)%nat ->
    tableOk (fun i' _ => (k <= i')%nat) dp ->
    tableOk (fun _ _ => True)
            (fold_left (fun dp i => fillRow A B i dp) (rev (seq 0 k)) dp).
Proof.
  induction k as [|k IH]; intros dp Hk Hok.
  - cbn. destruct Hok as [Hlen Hok]. split; [exact Hlen|].
    intros i' j' Hi' Hj' _. apply Hok; [lia..|]. right. right. lia.
  - rewrite fold_left_down. apply IH; [lia|].
    unfold fillRow. fold m W. apply fillRow_ok; [lia|lia|].
    destruct Hok as [Hlen Hok]. split; [exact Hlen|].
    intros i' j' Hi' Hj' Hd. apply Hok; [lia..|].
    destruct Hd as [?|[?|[?|[? ?]]]];
      [now left|now right; left|right; right; lia|right; left; lia].
Qed.

Lemma fillTable_ok : tableOk (fun _ _ => True) (fillTable A B).
Proof.
  unfold fillTable. fold n m. apply fillRows_ok; [lia|].
  split; [apply length_replicate|].
  intros i j Hi Hj Hd.
  assert (Hz : rd (replicate ((n + 1) * (m + 1)) 0) (idx W i j) = 0).
  { unfold rd. rewrite lookup_replicate_2; [reflexivity|unfold idx, W; nia]. }
  rewrite Hz. destruct Hd as [->|[->|Hd]].
  - subst n. now rewrite drop_all.
  - subst m. now rewrite drop_all, lcs_nil_r.
  - assert (i = n) by lia. subst i n. now rewrite drop_all.
Qed.
End TableFacts.

(** X13.  When one of the two texts has fewer than 65536 lines, every cell
    of the table the walk reads holds the length of a longest common
    subsequence of the lines from [i] on in the old text and from [j] on
    in the new text: some list of lines of that length is a subsequence of
    both, and no common subsequence is longer. *)
Theorem table_holds_lcs_lengths (A B : list jsstring) (i j : nat) :
  Z.of_nat (length A) < 65536 \/ Z.of_nat (length B) < 65536 ->
  (i <= length A)%nat -> (j <= length B)%nat ->
  let k := rd (fillTable A B) (idx (length B + 1) i j) in
  (exists l, l `sublist_of` drop i A /\ l `sublist_of` drop j B
             /\ Z.of_nat (length l) = k)
  /\ (forall l, l `sublist_of` drop i A -> l `sublist_of` drop j B ->
                Z.of_nat (length l) <= k).
Proof.
  intros Hshort Hi Hj k.
  destruct (fillTable_ok A B Hshort) as [_ Hok].
  assert (Hk : k = Z.of_nat (lcs (drop i A) (drop j B)))
    by (apply Hok; auto).
  rewrite Hk. split.
  - destruct (lcs_common (drop i A) (drop j B)) as (l & H1 & H2 & H3).
    exists l. split_and!; [assumption..|lia].
  - intros l H1 H2. apply inj_le. now apply lcs_greatest.
Qed.

Lemma table_holds_lcs_lengths_witness :
  let A := split (js "x\ny\nfoo\nbar\nz") in
  let B := split (js "x\nfoo\nbar\ny\nz") in
  let k := rd (fillTable A B) (idx (length B + 1) 1 1) in
  (exists l, l `sublist_of` drop 1 A /\ l `sublist_of` drop 1 B
             /\ Z.of_nat (length l) = k)
  /\ (forall l, l `sublist_of` drop 1 A -> l `sublist_of` drop 1 B ->
                Z.of_nat (length l) <= k).
Proof.
  apply (table_holds_lcs_lengths (split (js "x\ny\nfoo\nbar\nz"))
           (split (js "x\nfoo\nbar\ny\nz")) 1 1).
  - left. reflexivity.
  - vm_compute. lia.
  - vm_compute. lia.
Defined.

Example table_lit :
  rd (fillTable (split (js "x\ny\nfoo\nbar\nz")) (split (js "x\nfoo\nbar\ny\nz")))
     (idx 6 0 0) = 4.
Proof. reflexivity. Qed.

(* ================================================================== *)
(** ** The symbol around the cursor: [find] of [getEnclosingSymbol] *)
(* ================================================================== *)

Set Warnings "-register-all".

Module Symbols.

(** A [vscode.DocumentSymbol], as far as [find] looks at it. *)
Inductive DocumentSymbol :=
| Symbol (name : jsstring) (range : Range) (children : list DocumentSymbol).

Definition name (s : DocumentSymbol) : jsstring :=
  match s with Symbol n _ _ => n end.
Definition srange (s : DocumentSymbol) : Range :=
  match s with Symbol _ r _ => r end.
Definition children (s : DocumentSymbol) : list DocumentSymbol :=
  match s with Symbol _ _ c => c end.

(** [p.isBeforeOrEqual(q)] *)
Definition isBeforeOrEqual (p q : Position) : bool :=
  (line p <? line q) || ((line p =? line q) && (character p <=? character q)).

(** [range.contains(pos)] *)
Definition contains (r : Range) (pos : Position) : bool :=
  isBeforeOrEqual (rstart r) pos && isBeforeOrEqual pos (rend r).

(** [child ?? s], for a symbol [s] of the list whose range contains the
    position. *)
Fixpoint deepest (pos : Position) (s : DocumentSymbol) : DocumentSymbol :=
  match s with
  | Symbol _ _ cs =>
      let fix findIn (l : list DocumentSymbol) : option DocumentSymbol :=
        match l with
        | [] => None
        | c :: r => if contains (srange c) pos then Some (deepest pos c)
                    else findIn r
        end in
      match findIn cs with
      | Some child => child
      | None => s
      end
  end.

(** [find(symList)] *)
Fixpoint find (pos : Position) (symList : list DocumentSymbol)
  : option DocumentSymbol :=
  match symList with
  | [] => None
  | s :: r => if contains (srange s) pos then Some (deepest pos s)
              else find pos r
  end.

(** The symbols of a list and those below them. *)
Fixpoint height (s : DocumentSymbol) : nat :=
  match s with
  | Symbol _ _ cs => S (fold_right (fun c h => Nat.max (height c) h) 0%nat cs)
  end.

End Symbols.

Import Symbols.

Lemma deepest_unfold (pos : Position) (s : DocumentSymbol) :
  deepest pos s = match find pos (children s) with
                  | Some child => child
                  | None => s
                  end.
Proof.
  destruct s as [n r cs]. cbn [deepest children].
  assert (H : forall l,
             (fix findIn (l : list DocumentSymbol) : option DocumentSymbol :=
                match l with
                | [] => None
                | c :: r => if contains (srange c) pos then Some (deepest pos c)
                            else findIn r
                end) l = find pos l).
  { induction l as [|c l IH]; [reflexivity|]. cbn. now rewrite IH. }
  now rewrite H.
Qed.

Lemma height_child (s c : DocumentSymbol) :
  In c (children s) -> (height c < height s)%nat.
Proof.
  destruct s as [n r cs]. cbn [children height].
  induction cs as [|d cs IH]; [intros []|].
  cbn. intros [->|Hin]; [lia|]. specialize (IH Hin). lia.
Qed.

(** A symbol is below [s] when it is [s] or below one of its children. *)
Inductive below (s : DocumentSymbol) : DocumentSymbol -> Prop :=
| below_self : below s s
| below_child c h : In c (children s) -> below c h -> below s h.

Lemma find_spec (pos : Position) (l : list DocumentSymbol) :
  match find pos l with
  | Some h =>
      exists pre s post,
        l = pre ++ s :: post
        /\ Forall (fun x => contains (srange x) pos = false) pre
        /\ contains (srange s) pos = true
        /\ h = deepest pos s
  | None => Forall (fun x => contains (srange x) pos = false) l
  end.
Proof.
  induction l as [|s l IH]; cbn [find]; [constructor|].
  destruct (contains (srange s) pos) eqn:Hc.
  - exists [], s, l. now split_and!.
  - destruct (find pos l) as [h|].
    + destruct IH as (pre & s' & post & -> & Hpre & Hs & Hh).
      exists (s :: pre), s', post. split_and!; [reflexivity| |exact Hs|exact Hh].
      now constructor.
    + now constructor.
Qed.

Lemma deepest_spec (pos : Position) (k : nat) :
  forall s, (height s <= k)%nat -> contains (srange s) pos = true ->
    below s (deepest pos s)
    /\ contains (srange (deepest pos s)) pos = true
    /\ Forall (fun c => contains (srange c) pos = false)
              (children (deepest pos s)).
Proof.
  induction k as [|k IH]; intros s Hk Hs.
  - destruct s; cbn in Hk; lia.
  - rewrite deepest_unfold.
    pose proof (find_spec pos (children s)) as Hf.
    destruct (find pos (children s)) as [h|].
    + destruct Hf as (pre & c & post & Hl & _ & Hc & ->).
      assert (Hin : In c (children s))
        by (rewrite Hl; apply in_or_app; right; now left).
      pose proof (height_child s c Hin) as Hh.
      destruct (IH c ltac:(lia) Hc) as (Hb & Hcont & Hnone).
      split_and!; [|exact Hcont|exact Hnone].
      now apply (below_child s c).
    + split_and!; [constructor|exact Hs|exact Hf].
Qed.

(** X19.  [find] returns nothing exactly when no symbol of the list
    contains the position.  Otherwise it goes into the first symbol of the
    list that contains it, and what it returns is that symbol or one below
    it, contains the position, and has no child that contains it: the
    search stops at an innermost symbol. *)
Theorem find_innermost (pos : Position) (symList : list DocumentSymbol) :
  match find pos symList with
  | None => Forall (fun s => contains (srange s) pos = false) symList
  | Some h =>
      (exists pre s post,
          symList = pre ++ s :: post
          /\ Forall (fun x => contains (srange x) pos = false) pre
          /\ contains (srange s) pos = true
          /\ below s h)
      /\ contains (srange h) pos = true
      /\ Forall (fun c => contains (srange c) pos = false) (children h)
  end.
Proof.
  pose proof (find_spec pos symList) as Hf.
  destruct (find pos symList) as [h|]; [|exact Hf].
  destruct Hf as (pre & s & post & Hl & Hpre & Hs & ->).
  destruct (deepest_spec pos (height s) s (le_n _) Hs) as (Hb & Hc & Hn).
  split_and!; [|exact Hc|exact Hn].
  exists pre, s, post. now split_and!.
Qed.

Example find_lit :
  let r a b c d := {| rstart := {| line := a; character := b |};
                      rend := {| line := c; character := d |} |} in
  let method := Symbol (js "run") (r 3 2 8 3) [] in
  let cls := Symbol (js "Model") (r 1 0 20 1) [Symbol (js "x") (r 2 2 2 9) []; method] in
  find {| line := 5; character := 0 |} [Symbol (js "top") (r 0 0 0 5) []; cls]
  = Some method
  /\ find {| line := 10; character := 0 |} [cls] = Some cls
  /\ find {| line := 30; character := 0 |} [cls] = None.
Proof. split_and!; reflexivity. Qed.

(* ================================================================== *)
(** ** The label of the reply: [parseLabeledPayload] *)
(* ================================================================== *)

Module Route.

Inductive ReqType := question | command | modification.

Record RouteResult := { type : ReqType; payload : jsstring; raw : jsstring }.

(** Letters are compared as the flag [i] does: a letter of the pattern
    matches itself and its upper-case form. *)
Definition lowerAscii (c : N) : N :=
  if ((65 <=? c) && (c <=? 90))%N then (c + 32)%N else c.

Fixpoint startsWithCI (s lab : jsstring) : bool :=
  match lab, s with
  | [], _ => true
  | c :: lab', d :: s' => (lowerAscii d =? c)%N && startsWithCI s' lab'
  | _ :: _, [] => false
  end.

(** The class [\w]. *)
Definition isWord (c : N) : bool :=
  ((97 <=? c) && (c <=? 122) || (65 <=? c) && (c <=? 90)
   || (48 <=? c) && (c <=? 57) || (c =? 95))%N%bool.

(** [\b] after a letter: the end, or a code unit that is not of a word. *)
Definition boundary (rest : jsstring) : bool :=
  match rest with
  | [] => true
  | c :: _ => negb (isWord c)
  end.

(** [lab\b] at the start of [s]: what follows. *)
Definition labelled (lab s : jsstring) : option jsstring :=
  if (startsWithCI s lab && boundary (drop (length lab) s))%bool
  then Some (drop (length lab) s) else None.

(** [/^(question|command|modification)\b/i]: the label and what follows. *)
Definition matchLabel (s : jsstring) : option (ReqType * jsstring) :=
  match labelled (js "question") s with
  | Some r => Some (question, r)
  | None =>
      match labelled (js "command") s with
      | Some r => Some (command, r)
      | None =>
          match labelled (js "modification") s with
          | Some r => Some (modification, r)
          | None => None
          end
      end
  end.

(** [s.replace(/^```[a-zA-Z]*\n?/, '')] for [s] starting with [```]. *)
Definition isLetter (c : N) : bool :=
  ((97 <=? c) && (c <=? 122) || (65 <=? c) && (c <=? 90))%N%bool.

Fixpoint skipLetters (s : jsstring) : jsstring :=
  match s with
  | c :: r => if isLetter c then skipLetters r else s
  | [] => []
  end.

Definition stripOpen (s : jsstring) : jsstring :=
  match skipLetters (drop 3 s) with
  | c :: r => if (c =? LF)%N then r else c :: r
  | [] => []
  end.

(** [s.replace(/```\s*$/, '')]: the first [```] followed by white space
    only, with that white space, is removed. *)
Fixpoint closeAt (s : jsstring) : option jsstring :=
  if (startsWith s ticks && forallb isWhiteSpace (drop 3 s))%bool then Some []
  else match s with
       | [] => None
       | c :: r => option_map (cons c) (closeAt r)
       end.

Definition stripClose (s : jsstring) : jsstring := default s (closeAt s).

Definition isSome {X} (o : option X) : bool :=
  match o with Some _ => true | None => false end.

(** The groups 1 and 2 of the match [m], if any: the second pattern is the
    first without [\s*] in front. *)
Definition groups (fence : jsstring) : option (ReqType * jsstring) :=
  match matchLabel (trimStart fence) with
  | Some (t, r) => Some (t, trimStart r)
  | None =>
      let line := trim (default []
                          (List.find (fun l => isSome (matchLabel l)) (split fence))) in
      if truthy line then
        match matchLabel line with
        | Some (t, r) => Some (t, trimStart r)
        | None => None
        end
      else None
  end.

Definition parseLabeledPayload (raw : jsstring) : RouteResult :=
  let s := trim raw in
  let fence := if startsWith s ticks then stripClose (stripOpen s) else s in
  let m := groups fence in
  {| type := match m with Some (t, _) => t | None => question end;
     payload := trimStart (match m with Some (_, p) => p | None => [] end);
     raw := raw |}.

(** The end of [decide]: a reply without payload is an error. *)
Definition routed (reply : jsstring) : option RouteResult :=
  let parsed := parseLabeledPayload reply in
  if truthy (payload parsed) then Some parsed else None.

End Route.

Import Route.

Example parse_lit :
  parseLabeledPayload (js " Command  save all ")
  = {| type := command; payload := js "save all"; raw := js " Command  save all " |}
  /\ payload (parseLabeledPayload (js "modification\n```py\nx = 1\n```"))
     = js "```py\nx = 1\n```"
  /\ parseLabeledPayload (js "```\nquestion what\n```")
     = {| type := question; payload := js "what\n"; raw := js "```\nquestion what\n```" |}
  /\ parseLabeledPayload (js "Sure. command save")
     = {| type := question; payload := js ""; raw := js "Sure. command save" |}
  /\ parseLabeledPayload (js "I think\ncommand save  \nnow")
     = {| type := command; payload := js "save"; raw := js "I think\ncommand save  \nnow" |}
  /\ type (parseLabeledPayload (js "commands save")) = question
  /\ routed (js "command") = None.
Proof. split_and!; reflexivity. Qed.

(** The three labels, as the pattern spells them. *)
Definition labelText (t : ReqType) : jsstring :=
  match t with
  | question => js "question"
  | command => js "command"
  | modification => js "modification"
  end.

Lemma startsWithCI_map (lab rest L : jsstring) :
  map lowerAscii lab = L -> startsWithCI (lab ++ rest) L = true.
Proof.
  revert L; induction lab as [|d lab IH]; intros L <-; [now destruct rest|].
  cbn. rewrite N.eqb_refl. now apply IH.
Qed.

Ltac bools_to_props :=
  repeat first [ rewrite orb_true_iff in * | rewrite andb_true_iff in *
               | rewrite N.leb_le in * | rewrite N.eqb_eq in * ].

Lemma whiteSpace_not_word (c : N) : isWhiteSpace c = true -> isWord c = false.
Proof.
  intros H. apply not_true_iff_false. intros Hw.
  unfold isWhiteSpace, isWord in *. bools_to_props. lia.
Qed.

Lemma labelled_hit (L lab sep pl : jsstring) :
  map lowerAscii lab = L -> sep <> [] -> forallb isWhiteSpace sep = true ->
  labelled L (lab ++ sep ++ pl) = Some (sep ++ pl).
Proof.
  intros Hlab Hsep Hws. unfold labelled.
  rewrite (startsWithCI_map lab _ L Hlab).
  assert (Hlen : length L = length lab) by (subst L; apply length_map).
  rewrite Hlen, drop_app_length.
  destruct sep as [|c sep]; [congruence|].
  cbn in Hws. apply andb_true_iff in Hws as [Hc _].
  cbn. now rewrite (whiteSpace_not_word c Hc).
Qed.

Lemma label_first (t : ReqType) (lab : jsstring) :
  map lowerAscii lab = labelText t ->
  exists d lab', lab = d :: lab'
                 /\ lowerAscii d = match t with
                                   | question => 113%N
                                   | command => 99%N
                                   | modification => 109%N
                                   end.
Proof.
  destruct lab as [|d lab']; [destruct t; discriminate|].
  intros H. exists d, lab'. split; [reflexivity|].
  destruct t; cbn in H; now injection H.
Qed.

Lemma lowerAscii_letter (d c : N) :
  lowerAscii d = c -> (97 <= c <= 122)%N ->
  isWhiteSpace d = false /\ d <> BACKTICK.
Proof.
  unfold lowerAscii, BACKTICK. intros H Hc.
  assert (Hd : (65 <= d <= 90)%N \/ (97 <= d <= 122)%N).
  { destruct (N.leb_spec 65 d), (N.leb_spec d 90); cbn in H; lia. }
  split; [|lia]. apply not_true_iff_false. intros Hw.
  unfold isWhiteSpace in Hw. bools_to_props. lia.
Qed.

Lemma labelled_miss (c c' d : N) (L s : jsstring) :
  lowerAscii d = c -> c <> c' -> labelled (c' :: L) (d :: s) = None.
Proof.
  intros Hd Hc. unfold labelled. cbn [startsWithCI]. rewrite Hd.
  destruct (N.eqb_spec c c'); [congruence|reflexivity].
Qed.

Lemma matchLabel_hit (t : ReqType) (lab sep pl : jsstring) :
  map lowerAscii lab = labelText t -> sep <> [] ->
  forallb isWhiteSpace sep = true ->
  matchLabel (lab ++ sep ++ pl) = Some (t, sep ++ pl).
Proof.
  intros Hlab Hsep Hws.
  pose proof (labelled_hit _ lab sep pl Hlab Hsep Hws) as Hhit.
  destruct (label_first t lab Hlab) as (d & lab' & -> & Hd).
  unfold matchLabel. cbn [app] in *.
  destruct t; cbn [labelText] in Hhit.
  - now rewrite Hhit.
  - change (js "question") with (113%N :: js "uestion").
    rewrite (labelled_miss 99 113 d) by (assumption || discriminate).
    now rewrite Hhit.
  - change (js "question") with (113%N :: js "uestion").
    change (js "command") with (99%N :: js "ommand").
    rewrite (labelled_miss 109 113 d), (labelled_miss 109 99 d)
      by (assumption || discriminate).
    now rewrite Hhit.
Qed.

Lemma parse_labelled (t : ReqType) (lab sep pl : jsstring) :
  map lowerAscii lab = labelText t ->
  sep <> [] -> forallb isWhiteSpace sep = true ->
  tidy pl -> pl <> [] ->
  parseLabeledPayload (lab ++ sep ++ pl)
  = {| type := t; payload := pl; raw := lab ++ sep ++ pl |}.
Proof.
  intros Hlab Hsep Hws [Hpl Hpt] Hne.
  pose proof (matchLabel_hit t lab sep pl Hlab Hsep Hws) as Hm.
  destruct (label_first t lab Hlab) as (d & lab' & -> & Hd).
  assert (Hletter : isWhiteSpace d = false /\ d <> BACKTICK).
  { apply (lowerAscii_letter d _ Hd). destruct t; lia. }
  destruct Hletter as [Hdw Hdb].
  set (reply := (d :: lab') ++ sep ++ pl) in *.
  assert (Htidy : tidy reply).
  { split; [exact Hdw|].
    unfold noTrail, reply. rewrite !rev_app_distr, <- app_assoc.
    apply noLead_app; [|exact Hpt].
    intros Hr. apply Hne. rewrite <- (rev_involutive pl), Hr. reflexivity. }
  unfold parseLabeledPayload. rewrite (tidy_trim _ Htidy).
  assert (Hticks : startsWith reply ticks = false).
  { unfold reply, ticks. cbn [app startsWith].
    destruct (N.eqb_spec BACKTICK d); [congruence|reflexivity]. }
  rewrite Hticks. unfold groups.
  rewrite (trimStart_id reply (proj1 Htidy)), Hm.
  rewrite (trimStart_skip sep pl Hws), !(trimStart_id pl Hpl). reflexivity.
Qed.

(** X20.  A reply made of a label (in any letter case), white space and a
    payload is taken apart as written: the type is the label and the
    payload comes back unchanged, whatever it contains (line feeds and
    fences included), as long as it is not empty and has no white space at
    either end; the reply itself is kept in [raw], and [decide] accepts
    it.  A reply that is a label alone has no payload, and [decide] refuses
    it. *)
Theorem labelled_reply_round_trip (t : ReqType) (lab sep pl : jsstring) :
  map lowerAscii lab = labelText t ->
  sep <> [] -> forallb isWhiteSpace sep = true ->
  tidy pl -> pl <> [] ->
  parseLabeledPayload (lab ++ sep ++ pl)
  = {| type := t; payload := pl; raw := lab ++ sep ++ pl |}
  /\ routed (lab ++ sep ++ pl)
     = Some {| type := t; payload := pl; raw := lab ++ sep ++ pl |}
  /\ routed (labelText t) = None.
Proof.
  intros Hlab Hsep Hws Hpl Hne.
  pose proof (parse_labelled t lab sep pl Hlab Hsep Hws Hpl Hne) as Hparse.
  split_and!; [exact Hparse| |now destruct t].
  unfold routed. rewrite Hparse. cbn [payload].
  destruct pl; [congruence|reflexivity].
Qed.

Lemma labelled_reply_round_trip_witness :
  parseLabeledPayload (js "MODIFICATION" ++ js "\n" ++ js "```py\nx = 1\n```")
  = {| type := modification; payload := js "```py\nx = 1\n```";
       raw := js "MODIFICATION" ++ js "\n" ++ js "```py\nx = 1\n```" |}
  /\ routed (js "MODIFICATION" ++ js "\n" ++ js "```py\nx = 1\n```")
     = Some {| type := modification; payload := js "```py\nx = 1\n```";
               raw := js "MODIFICATION" ++ js "\n" ++ js "```py\nx = 1\n```" |}
  /\ routed (labelText modification) = None.
Proof.
  apply (labelled_reply_round_trip modification (js "MODIFICATION") (js "\n")
           (js "```py\nx = 1\n```")).
  - reflexivity.
  - discriminate.
  - reflexivity.
  - split; reflexivity.
  - discriminate.
Defined.

(** * From the reply of the model to the text of the document *)

(** The modification branch of the listening loop: the payload of the
    routed reply, its fence stripped, replaces the document. *)
Definition applyModification (now : Z) (result : RouteResult) (e : Editor) : Editor :=
  replaceDocumentWithHighlight now (stripMarkdownCodeFence (payload result)) e.

Lemma replace_text (now : Z) (newText : jsstring) (e : Editor) :
  text (replaceDocumentWithHighlight now newText e) = newText.
Proof.
  unfold replaceDocumentWithHighlight.
  destruct (lineCount newText =? 0); reflexivity.
Qed.

(** X21.  A reply that labels a fenced block as a modification puts exactly
    the code of the block into the document: [decide] accepts the reply as
    a modification, and after the modification branch has run the text of
    the editor is the code between the fences, without the label, the
    fences or the info string. *)
Theorem modification_reply_sets_document
        (now : Z) (lab sep info code : jsstring) (e : Editor) :
  map lowerAscii lab = js "modification" ->
  sep <> [] -> forallb isWhiteSpace sep = true ->
  forallb isInfo info = true ->
  exists r, routed (lab ++ sep ++ fenced info code) = Some r
            /\ type r = modification
            /\ text (applyModification now r e) = code.
Proof.
  intros Hlab Hsep Hws Hinfo.
  assert (Hne : fenced info code <> []) by discriminate.
  pose proof (parse_labelled modification lab sep (fenced info code)
                Hlab Hsep Hws (fenced_tidy info code) Hne) as Hparse.
  eexists. split_and!.
  - unfold routed. rewrite Hparse. reflexivity.
  - reflexivity.
  - unfold applyModification. rewrite replace_text. cbn [payload].
    pose proof (strip_fenced info code [] [] Hinfo eq_refl eq_refl) as Hs.
    rewrite app_nil_r in Hs. exact Hs.
Qed.

Lemma modification_reply_sets_document_witness :
  exists r, routed (js "Modification" ++ js "\n" ++ fenced (js "ts") (js "let x = 1;"))
            = Some r
            /\ type r = modification
            /\ text (applyModification 0 r (fresh (js "let x = 0;"))) = js "let x = 1;".
Proof.
  apply (modification_reply_sets_document 0 (js "Modification") (js "\n") (js "ts")
           (js "let x = 1;") (fresh (js "let x = 0;")));
    [reflexivity|discriminate|reflexivity|reflexivity].
Defined.
